(** * dht22.c: a DHT22 single-wire sensor driver and its specification

    A shallow embedding of [dht22.c].  The GPIO line is an oracle giving the
    value of every [gpioRead] call; C undefined behaviour (an array access
    out of bounds) is an explicit outcome; [float] and [double] arithmetic is
    the IEEE 754 arithmetic of [SpecFloat]; the module's globals are a record
    that every API function threads through. *)

From Stdlib Require Import ZArith List Bool Lia.
From Stdlib Require Import Floats.SpecFloat.
Import ListNotations.
Local Open Scope Z_scope.

(** ** Constants ([dht22.c] lines 13-15, and [pigpio.h] for the levels) *)

Definition MAX_TIMINGS : nat := 85.
Definition SENSOR_POLL_INTERVAL_SEC : nat := 10.
Definition MAX_READ_ATTEMPTS : nat := 5.
Definition PI_LOW : Z := 0.
Definition PI_HIGH : Z := 1.

(** ** C [float] and [double] values *)

Module CFloat.

(** [(double) n] for an [int] n: exact, every [int] fits 53 bits. *)
Definition double_of_int (n : Z) : spec_float :=
  binary_normalize 53 1024 n 0 false.

(** [(float) x] for a [double] x: round to nearest even on 24 bits. *)
Definition float_of_double (x : spec_float) : spec_float :=
  match x with
  | S754_finite s m e =>
      binary_normalize 24 128 (if s then Zneg m else Zpos m) e s
  | _ => x
  end.

(** [float f = n / 10.0;] the division is done in [double], the
    initialisation converts to [float]. *)
Definition div10 (n : Z) : spec_float :=
  float_of_double (SFdiv 53 1024 (double_of_int n) (double_of_int 10)).

Definition neg (x : spec_float) : spec_float := SFopp x.

Definition zero : spec_float := S754_zero false.

End CFloat.

(** ** Undefined behaviour

    [None] is C undefined behaviour; [Some] is a defined result. *)

Notation "x <- c1 ;; c2" :=
  (match c1 with Some x => c2 | None => None end)
  (at level 61, c1 at next level, right associativity).

(** [int data[5]]: an access is defined only inside the array. *)
Definition in_bounds (a : list Z) (idx : Z) : bool :=
  (0 <=? idx) && (idx <? Z.of_nat (length a)).

Definition array_get (a : list Z) (idx : Z) : option Z :=
  if in_bounds a idx then nth_error a (Z.to_nat idx) else None.

Definition array_set (a : list Z) (idx : Z) (v : Z) : option (list Z) :=
  if in_bounds a idx
  then Some (firstn (Z.to_nat idx) a ++ v :: skipn (S (Z.to_nat idx)) a)
  else None.

(** ** One read attempt ([dht22_read_single_attempt], lines 26-90) *)

(** What the caller sees: the return code and the two output cells. *)
Record attempt_result : Type := mkAttempt {
  ret : Z;
  temperature : spec_float;
  humidity : spec_float
}.

(** The locals that live across the capture loop.  [reads] counts the
    [gpioRead] calls made so far. *)
Record loop_state : Type := mkLoop {
  lastState : Z;
  reads : nat;
  data : list Z;
  j : Z
}.

Section SingleAttempt.

(** [gpioRead n] is the level returned by the n-th call (from 0) of
    [gpioRead(gpioPin)] during the attempt.  The writes, mode changes and
    delays of the start signal act on the sensor, which is this oracle. *)
Variable gpioRead : nat -> Z.

(** Lines 46-53: the [while] that times one pulse; it returns the counter
    and the number of reads made.  Each turn either leaves or increments
    the counter, and the counter stops the loop at 255. *)
Fixpoint wait_change (fuel : nat) (last : Z) (counter : Z) (k : nat)
  : Z * nat :=
  match fuel with
  | O => (counter, k)
  | S fuel' =>
      if gpioRead k =? last then
        let counter := counter + 1 in
        if counter =? 255 then (counter, S k)
        else wait_change fuel' last counter (S k)
      else (counter, S k)
  end.

(** Lines 46-54: the counter, the new [lastState], the reads made. *)
Definition measure_pulse (last : Z) (k : nat) : Z * Z * nat :=
  let '(counter, k1) := wait_change 255 last 0 k in
  (counter, gpioRead k1, S k1).

(** Lines 59-69: what iteration [i] does with its counter. *)
Definition process_pulse (i counter : Z) (d : list Z) (jj : Z)
  : option (list Z * Z) :=
  if (4 <=? i) && (i mod 2 =? 0) then
    v <- array_get d (jj / 8) ;;
    d1 <- array_set d (jj / 8) (Z.shiftl v 1) ;;
    d2 <- (if 25 <? counter
           then v1 <- array_get d1 (jj / 8) ;;
                array_set d1 (jj / 8) (Z.lor v1 1)
           else Some d1) ;;
    Some (d2, jj + 1)
  else Some (d, jj).

(** Lines 44-70: the [for] loop, [n] iterations left, at index [i]. *)
Fixpoint read_loop (n : nat) (i : Z) (st : loop_state)
  : option loop_state :=
  match n with
  | O => Some st
  | S n' =>
      let '(counter, last, k) := measure_pulse (lastState st) (reads st) in
      if counter =? 255 then Some (mkLoop last k (data st) (j st))
      else
        dj <- process_pulse i counter (data st) (j st) ;;
        read_loop n' (i + 1) (mkLoop last k (fst dj) (snd dj))
  end.

(** Lines 72-87: checksum verification and conversion.  The checksum is
    looked at only when [j >= 40]. *)
Definition verify (d : list Z) (jj : Z) : option attempt_result :=
  if 40 <=? jj then
    d0 <- array_get d 0 ;;
    d1 <- array_get d 1 ;;
    d2 <- array_get d 2 ;;
    d3 <- array_get d 3 ;;
    d4 <- array_get d 4 ;;
    if d4 =? Z.land (d0 + d1 + d2 + d3) 255 then
      let h := CFloat.div10 (Z.shiftl d0 8 + d1) in
      let c := CFloat.div10 (Z.shiftl (Z.land d2 127) 8 + d3) in
      let c := if Z.land d2 128 =? 0 then c else CFloat.neg c in
      Some (mkAttempt 0 c h)
    else Some (mkAttempt 1 CFloat.zero CFloat.zero)
  else Some (mkAttempt 1 CFloat.zero CFloat.zero).

Definition loop_init : loop_state := mkLoop PI_HIGH 0 [0; 0; 0; 0; 0] 0.

Definition dht22_read_single_attempt : option attempt_result :=
  st <- read_loop MAX_TIMINGS 0 loop_init ;;
  verify (data st) (j st).

(** *** The captured pulses and the frame they carry *)

(** The counters the loop measures, in order, up to the first one that
    reaches the cap of 255 (which ends the capture). *)
Fixpoint capture (n : nat) (last : Z) (k : nat) : list Z :=
  match n with
  | O => []
  | S n' =>
      let '(counter, last', k') := measure_pulse last k in
      if counter =? 255 then [] else counter :: capture n' last' k'
  end.

Definition pulses : list Z := capture MAX_TIMINGS PI_HIGH 0.

End SingleAttempt.

(** Every second element of a list, starting with the first. *)
Fixpoint every_other (l : list Z) : list Z :=
  match l with
  | x :: _ :: l' => x :: every_other l'
  | x :: [] => [x]
  | [] => []
  end.

(** A pulse is a 1 when it lasted more than 25 microseconds. *)
Definition bit_of_pulse (counter : Z) : bool := 25 <? counter.

(** The data bits of a capture: drop 4 pulses, keep every second one. *)
Definition data_bits (ps : list Z) : list bool :=
  map bit_of_pulse (every_other (skipn 4 ps)).

(** The value of a run of bits, most significant first. *)
Definition msb_value (bs : list bool) : Z :=
  fold_left (fun acc b => 2 * acc + Z.b2z b) bs 0.

(** Byte [k] of a frame is made of bits 8k .. 8k+7. *)
Definition byte_at (bits : list bool) (k : nat) : Z :=
  msb_value (firstn 8 (skipn (8 * k) bits)).

Definition frame_bytes (bits : list bool) : list Z :=
  map (byte_at bits) (seq 0 5).

(** A scripted line: it holds each level for the given
    number of reads and then toggles; after the script it never changes. *)
Fixpoint line_of_pulses (ps : list nat) (level : Z) (k : nat) : Z :=
  match ps with
  | [] => level
  | c :: ps' =>
      if (k <? c)%nat then level
      else if (k <? c + 2)%nat then 1 - level
      else line_of_pulses ps' (1 - level) (k - (c + 2))
  end.

(** The loop body's effect on [data] and [j], folded over the captured
    counters from index [i] on. *)
Fixpoint process_pulses (i : Z) (ps : list Z) (d : list Z) (jj : Z)
  : option (list Z * Z) :=
  match ps with
  | [] => Some (d, jj)
  | c :: ps' =>
      dj <- process_pulse i c d jj ;;
      process_pulses (i + 1) ps' (fst dj) (snd dj)
  end.

(** The two converted values of a frame with bytes [b0 .. b3]. *)
Definition frame_humidity (b0 b1 : Z) : spec_float :=
  CFloat.div10 (Z.lor (Z.shiftl b0 8) b1).

Definition frame_temperature (b2 b3 : Z) : spec_float :=
  let magnitude := CFloat.div10 (Z.lor (Z.shiftl (Z.land b2 127) 8) b3) in
  if Z.testbit b2 7 then CFloat.neg magnitude else magnitude.

(** ** Module state (lines 17-23)

    [polling_threads] is the operating system's side of [g_polling_thread]:
    the polling threads created and not yet joined or cancelled. *)
Record module_state : Type := mkState {
  g_temperature_c : spec_float;
  g_humidity : spec_float;
  g_data_available : Z;
  g_gpioPin : Z;
  g_terminate_thread : Z;
  polling_threads : nat
}.

Definition initial_state : module_state :=
  mkState CFloat.zero CFloat.zero 0 (-1) 0 0.

(** What the polling thread and [dht22_terminate] do to the world outside
    the module state. *)
Inductive event : Type :=
| Attempt (attempt : nat) (result : Z)  (* dht22_read_single_attempt *)
| Publish (t h : spec_float)            (* the locked update, lines 113-117 *)
| Printf (t h : spec_float)              (* printf, line 121 *)
| Usleep (usec : Z)                     (* usleep, line 129 *)
| Sleep (sec : Z)                       (* sleep, line 136 *)
| Cancel                                (* pthread_cancel, line 211 *)
| GpioTerminate.                        (* gpioTerminate, line 218 *)

(** Lines 113-117. *)
Definition publish (r : attempt_result) (s : module_state) : module_state :=
  mkState (temperature r) (humidity r) 1
          (g_gpioPin s) (g_terminate_thread s) (polling_threads s).

(** What one poll cycle takes from outside: the GPIO line during each
    attempt, and the value of the volatile [g_terminate_thread] at each of
    its reads (another thread sets it): in the [for] condition before
    attempt [a], in the guard of the retry sleep after attempt [a], and in
    the condition of the interval wait at second [i]. *)
Record cycle_input : Type := mkCycle {
  line : nat -> nat -> Z;
  stop_before : nat -> bool;
  stop_after : nat -> bool;
  stop_wait : nat -> bool
}.

(** Line 128: the guard of the retry sleep after attempt [a]. *)
Definition retry_guard (ci : cycle_input) (a : nat) : bool :=
  (Z.of_nat a <? Z.of_nat MAX_READ_ATTEMPTS - 1) && negb (stop_after ci a).

(** Lines 106-131: the retry loop, [n] attempts left, at index [attempt].
    The condition reads the flag only when [attempt < MAX_READ_ATTEMPTS]. *)
Fixpoint retry_loop (ci : cycle_input) (n attempt : nat) (s : module_state)
  : option (module_state * list event) :=
  match n with
  | O => Some (s, [])
  | S n' =>
      if stop_before ci attempt then Some (s, [])
      else
        r <- dht22_read_single_attempt (line ci attempt) ;;
        if ret r =? 0 then
          Some (publish r s,
                [Attempt attempt (ret r);
                 Publish (temperature r) (humidity r);
                 Printf (temperature r) (humidity r)])
        else
          rest <- retry_loop ci n' (S attempt) s ;;
          Some (fst rest,
                Attempt attempt (ret r) ::
                if retry_guard ci attempt
                then Usleep 200000 :: snd rest
                else snd rest)
  end.

(** Lines 135-137: the poll interval, one second at a time. *)
Fixpoint interval_wait (ci : cycle_input) (n i : nat) : list event :=
  match n with
  | O => []
  | S n' =>
      if stop_wait ci i then []
      else Sleep 1 :: interval_wait ci n' (S i)
  end.

(** Lines 104-137: the body of the thread's [while] loop. *)
Definition poll_cycle (ci : cycle_input) (s : module_state)
  : option (module_state * list event) :=
  r <- retry_loop ci MAX_READ_ATTEMPTS 0 s ;;
  Some (fst r, snd r ++ interval_wait ci SENSOR_POLL_INTERVAL_SEC 0).

(** Lines 102-138: the thread's [while] loop, for as many cycles as the
    list gives; each comes with the value the loop condition reads. *)
Fixpoint dht22_polling_thread (cycles : list (bool * cycle_input))
  (s : module_state) : option (module_state * list event) :=
  match cycles with
  | [] => Some (s, [])
  | (stop, ci) :: cycles' =>
      if stop then Some (s, [])
      else
        r <- poll_cycle ci s ;;
        r' <- dht22_polling_thread cycles' (fst r) ;;
        Some (fst r', snd r ++ snd r')
  end.

(** ** The public API (lines 145-220) *)

(** [create_ok] tells whether [pthread_create] succeeds. *)
Definition dht22_start_polling (create_ok : bool) (gpioPin : Z)
  (s : module_state) : Z * module_state :=
  if negb (g_gpioPin s =? -1) then (0, s)
  else
    if create_ok then
      (0, mkState (g_temperature_c s) (g_humidity s) (g_data_available s)
                  gpioPin 0 (S (polling_threads s)))
    else
      (-1, mkState (g_temperature_c s) (g_humidity s) (g_data_available s)
                   (-1) 0 (polling_threads s)).

(** Lines 179-192; [initialise_result] is what [gpioInitialise] returns. *)
Definition dht22_init (initialise_result : Z) : Z :=
  if initialise_result <? 0 then -1 else 0.

(** [out] is what the caller's two cells hold before the call; the result
    is the return code and what they hold after it. *)
Definition dht22_get_last_valid_reading (s : module_state)
  (out : spec_float * spec_float) : Z * (spec_float * spec_float) :=
  if g_data_available s =? 0 then (1, out)
  else (0, (g_temperature_c s, g_humidity s)).

(** [join_result] is what [pthread_timedjoin_np] returns.  A joined thread
    has ended; a cancelled one is counted as ended too. *)
Definition dht22_terminate (join_result : Z) (s : module_state)
  : module_state * list event :=
  if negb (g_gpioPin s =? -1) then
    (mkState (g_temperature_c s) (g_humidity s) 0 (-1) 1
             (Nat.pred (polling_threads s)),
     (if join_result =? 0 then [] else [Cancel]) ++ [GpioTerminate])
  else (s, [GpioTerminate]).

(** ** Runs of the module

    The calls a client makes, interleaved with the poll cycles of the
    polling thread.  A cycle needs a polling thread. *)
Inductive call : Type :=
| Start (create_ok : bool) (gpioPin : Z)
| Cycle (ci : cycle_input)
| GetReading (out : spec_float * spec_float)
| Terminate (join_result : Z).

Definition step (c : call) (s : module_state) : option module_state :=
  match c with
  | Start create_ok gpioPin =>
      Some (snd (dht22_start_polling create_ok gpioPin s))
  | Cycle ci =>
      if (0 <? polling_threads s)%nat
      then option_map fst (poll_cycle ci s)
      else Some s
  | GetReading _ => Some s
  | Terminate join_result => Some (fst (dht22_terminate join_result s))
  end.

Fixpoint run (cs : list call) (s : module_state) : option module_state :=
  match cs with
  | [] => Some s
  | c :: cs' => s' <- step c s ;; run cs' s'
  end.

(** -1 is the module's mark for "no pin": a client starts a real pin. *)
Definition real_pin (c : call) : bool :=
  match c with
  | Start _ gpioPin => negb (gpioPin =? -1)
  | _ => true
  end.

(** Counting the events of a trace. *)
Definition is_attempt (e : event) : bool :=
  match e with Attempt _ _ => true | _ => false end.

Definition is_retry_sleep (e : event) : bool :=
  match e with Usleep _ => true | _ => false end.

Definition count_attempts (tr : list event) : nat :=
  length (filter is_attempt tr).

Definition count_retry_sleeps (tr : list event) : nat :=
  length (filter is_retry_sleep tr).

(** ** Scripted GPIO lines *)

Definition bits_of_byte (b : Z) : list bool :=
  map (fun k => Z.testbit b (Z.of_nat k)) [7; 6; 5; 4; 3; 2; 1; 0]%nat.

(** The pulse lengths of a DHT22 answer carrying the given bytes: the wait
    for the sensor, its 80/80 microsecond answer, then per bit a 50
    microsecond low and a high of 70 (one) or 24 (zero), and the final low. *)
Definition pulses_of_bytes (bs : list Z) : list nat :=
  [3; 80; 80]%nat
  ++ flat_map (fun b : bool => [50; if b then 70 else 24]%nat)
              (flat_map bits_of_byte bs)
  ++ [50%nat].

Definition sensor_line (bs : list Z) : nat -> Z :=
  line_of_pulses (pulses_of_bytes bs) PI_HIGH.

(** A line that never leaves the high level: no sensor answers. *)
Definition stuck_line : nat -> Z := fun _ => PI_HIGH.

(** A line that changes level at every pulse, without end. *)
Definition toggling_line : nat -> Z :=
  fun k => if Nat.even (k / 2) then PI_LOW else PI_HIGH.

Definition never : nat -> bool := fun _ => false.

(** The answer of a slower sensor carrying the same bytes: other
    handshake and low-pulse lengths, highs of 120 (one) or 10 (zero). *)
Definition slow_sensor_line (bs : list Z) : nat -> Z :=
  line_of_pulses
    ([7; 60; 90]%nat
     ++ flat_map (fun b : bool => [30; if b then 120 else 10]%nat)
                 (flat_map bits_of_byte bs)
     ++ [45%nat])
    PI_HIGH.

(** A cycle whose first two attempts get no answer and whose third reads
    65.2 percent and 34.9 degrees; the stop flag is seen set once, in the
    sleep guard after the second attempt. *)
Definition mixed_cycle : cycle_input :=
  mkCycle (fun a => if (a <? 2)%nat then stuck_line
                    else sensor_line [2; 140; 1; 93; 236])
          never (fun a => (a =? 1)%nat) never.

(** A cycle in which no sensor answers and the stop flag is seen set in
    the loop condition before the second attempt. *)
Definition cancelled_cycle : cycle_input :=
  mkCycle (fun _ => stuck_line) (fun a => (a =? 1)%nat) never never.

(** A cycle in which no sensor answers and nobody asks to stop. *)
Definition silent_cycle : cycle_input :=
  mkCycle (fun _ => stuck_line) never never never.

(** A cycle whose first attempt reads 65.2 percent and 34.9 degrees. *)
Definition good_cycle : cycle_input :=
  mkCycle (fun _ => sensor_line [2; 140; 1; 93; 236]) never never never.

(** A state in which a reading has been published. *)
Definition published_state : module_state :=
  mkState (frame_temperature 1 93) (frame_humidity 2 140) 1 4 0 1.

(** The module invariant of the runs that start real pins: without a pin
    there is no reading on offer and no polling thread; with one there is
    exactly one thread. *)
Definition consistent (s : module_state) : Prop :=
  (g_gpioPin s = -1 -> g_data_available s = 0 /\ polling_threads s = 0%nat)
  /\ (g_gpioPin s <> -1 -> polling_threads s = 1%nat).

(** What a failed attempt leaves: code 1, both outputs at 0. *)
Definition failure : attempt_result := mkAttempt 1 CFloat.zero CFloat.zero.

(** ** Measures of a capture and of a trace *)

(** The [gpioRead] calls a capture costs: a pulse of counter [c] takes
    [c + 1] reads in the [while] and one for [lastState]. *)
Definition pulse_reads (ps : list Z) : Z :=
  fold_right (fun c acc => c + 2 + acc) 0 ps.

Definition is_publish (e : event) : bool :=
  match e with Publish _ _ => true | _ => false end.

Definition is_sleep (e : event) : bool :=
  match e with Sleep _ => true | _ => false end.

Definition count_publishes (tr : list event) : nat :=
  length (filter is_publish tr).

Definition count_sleeps (tr : list event) : nat :=
  length (filter is_sleep tr).

(** The reading of the last [Publish] of a trace, if it has one. *)
Fixpoint last_publish (tr : list event)
  : option (spec_float * spec_float) :=
  match tr with
  | [] => None
  | e :: tr' =>
      match last_publish tr' with
      | Some th => Some th
      | None =>
          match e with
          | Publish t h => Some (t, h)
          | _ => None
          end
      end
  end.

(** The state with the reading [(t, h)] in the cache. *)
Definition with_reading (th : spec_float * spec_float) (s : module_state)
  : module_state :=
  mkState (fst th) (snd th) 1
          (g_gpioPin s) (g_terminate_thread s) (polling_threads s).

(** * Properties *)

(** ** Lemmas on bits and bytes *)

Lemma msb_value_snoc (bs : list bool) (b : bool) :
  msb_value (bs ++ [b]) = 2 * msb_value bs + Z.b2z b.
Proof. unfold msb_value. now rewrite fold_left_app. Qed.

Lemma msb_value_bound (bs : list bool) :
  0 <= msb_value bs < 2 ^ Z.of_nat (length bs).
Proof.
  induction bs as [|b bs IH] using rev_ind.
  - cbn. lia.
  - rewrite msb_value_snoc, length_app, Nat2Z.inj_add. cbn [length].
    rewrite Z.pow_add_r by lia. change (2 ^ Z.of_nat 1) with 2.
    destruct b; cbn [Z.b2z]; lia.
Qed.

Lemma byte_at_range (bits : list bool) (k : nat) : 0 <= byte_at bits k < 256.
Proof.
  unfold byte_at.
  pose proof (msb_value_bound (firstn 8 (skipn (8 * k) bits))) as H.
  assert (Hl : (length (firstn 8 (skipn (8 * k) bits)) <= 8)%nat)
    by (rewrite length_firstn; lia).
  assert (2 ^ Z.of_nat (length (firstn 8 (skipn (8 * k) bits))) <= 2 ^ 8)
    by (apply Z.pow_le_mono_r; lia).
  change (2 ^ 8) with 256 in *. lia.
Qed.

Lemma byte_at_snoc_full (bits : list bool) (b : bool) (k : nat) :
  (8 * k + 8 <= length bits)%nat ->
  byte_at (bits ++ [b]) k = byte_at bits k.
Proof.
  intros H. unfold byte_at. f_equal.
  rewrite skipn_app, firstn_app.
  assert (Hs : (8 <= length (skipn (8 * k) bits))%nat)
    by (rewrite length_skipn; lia).
  replace (8 - length (skipn (8 * k) bits))%nat with 0%nat by lia.
  cbn [firstn]. now rewrite app_nil_r.
Qed.

Lemma byte_at_snoc_empty (bits : list bool) (b : bool) (k : nat) :
  (length bits < 8 * k)%nat ->
  byte_at (bits ++ [b]) k = byte_at bits k.
Proof.
  intros H. unfold byte_at.
  rewrite !skipn_all2; [reflexivity | lia |].
  rewrite length_app. cbn [length]. lia.
Qed.

Lemma byte_at_snoc_current (bits : list bool) (b : bool) (k : nat) :
  (8 * k <= length bits < 8 * k + 8)%nat ->
  byte_at (bits ++ [b]) k = 2 * byte_at bits k + Z.b2z b.
Proof.
  intros H. unfold byte_at.
  rewrite skipn_app.
  replace (8 * k - length bits)%nat with 0%nat by lia. cbn [skipn].
  rewrite !firstn_all2.
  - apply msb_value_snoc.
  - rewrite length_skipn. lia.
  - rewrite length_app, length_skipn. cbn [length]. lia.
Qed.

Lemma land_double_1 (v : Z) : Z.land (2 * v) 1 = 0.
Proof.
  change 1 with (Z.ones 1). rewrite Z.land_ones by lia.
  change (2 ^ 1) with 2. replace (2 * v) with (v * 2) by lia.
  apply Z.mod_mul. lia.
Qed.

Lemma shiftl_lor_bit (v : Z) (b : bool) :
  (if b then Z.lor (Z.shiftl v 1) 1 else Z.shiftl v 1) = 2 * v + Z.b2z b.
Proof.
  rewrite Z.shiftl_mul_pow2 by lia. change (2 ^ 1) with 2.
  replace (v * 2) with (2 * v) by lia.
  destruct b; cbn [Z.b2z]; [|lia].
  rewrite <- Z.lxor_lor, <- Z.add_nocarry_lxor; auto using land_double_1.
Qed.

Lemma frame_bytes_nil : frame_bytes [] = [0; 0; 0; 0; 0].
Proof. reflexivity. Qed.

Lemma frame_bytes_eq (bits : list bool) :
  frame_bytes bits =
  [byte_at bits 0; byte_at bits 1; byte_at bits 2; byte_at bits 3;
   byte_at bits 4].
Proof. reflexivity. Qed.

(** ** The capture loop *)

Lemma wait_change_fuel (gpioRead : nat -> Z) (last : Z) :
  forall fuel fuel' counter k,
    counter < 255 ->
    255 - counter <= Z.of_nat fuel -> 255 - counter <= Z.of_nat fuel' ->
    wait_change gpioRead fuel last counter k =
    wait_change gpioRead fuel' last counter k.
Proof.
  induction fuel as [|fuel IH]; intros [|fuel'] counter k H0 H1 H2;
    try lia; cbn.
  destruct (gpioRead k =? last); [|reflexivity].
  destruct (counter + 1 =? 255) eqn:E; [reflexivity|].
  apply Z.eqb_neq in E. apply IH; lia.
Qed.

Lemma wait_change_range (gpioRead : nat -> Z) (last : Z) :
  forall fuel counter k,
    0 <= counter < 255 ->
    0 <= fst (wait_change gpioRead fuel last counter k) <= 255.
Proof.
  induction fuel as [|fuel IH]; intros counter k H; cbn; [lia|].
  destruct (gpioRead k =? last); cbn; [|lia].
  destruct (counter + 1 =? 255) eqn:E; cbn; [lia|].
  apply Z.eqb_neq in E. apply IH. lia.
Qed.

Lemma capture_length (gpioRead : nat -> Z) :
  forall n last k, (length (capture gpioRead n last k) <= n)%nat.
Proof.
  induction n as [|n IH]; intros last k; cbn; [lia|].
  destruct (measure_pulse gpioRead last k) as [[c l] k'].
  destruct (c =? 255); cbn; [lia|]. specialize (IH l k'). lia.
Qed.

Lemma pulses_length (gpioRead : nat -> Z) :
  (length (pulses gpioRead) <= 85)%nat.
Proof. apply capture_length. Qed.

(** The loop is its body folded over the captured counters. *)
Lemma read_loop_capture (gpioRead : nat -> Z) :
  forall n i st,
    option_map (fun s => (data s, j s)) (read_loop gpioRead n i st) =
    process_pulses i (capture gpioRead n (lastState st) (reads st))
                   (data st) (j st).
Proof.
  induction n as [|n IH]; intros i st; cbn; [reflexivity|].
  destruct (measure_pulse gpioRead (lastState st) (reads st)) as [[c l] k].
  destruct (c =? 255); cbn; [reflexivity|].
  destruct (process_pulse i c (data st) (j st)) as [[d' j']|]; cbn;
    [|reflexivity].
  apply IH.
Qed.

Lemma process_pulse_skip (i c : Z) (d : list Z) (jj : Z) :
  i < 4 \/ i mod 2 = 1 -> process_pulse i c d jj = Some (d, jj).
Proof.
  intros H. unfold process_pulse.
  destruct (4 <=? i) eqn:E1; [|reflexivity].
  destruct (i mod 2 =? 0) eqn:E2; [|reflexivity].
  apply Z.leb_le in E1. apply Z.eqb_eq in E2. lia.
Qed.

(** A selected pulse appends its bit to the frame. *)
Lemma process_pulse_bit (i c : Z) (bits : list bool) :
  4 <= i -> i mod 2 = 0 -> (length bits < 40)%nat ->
  process_pulse i c (frame_bytes bits) (Z.of_nat (length bits)) =
  Some (frame_bytes (bits ++ [bit_of_pulse c]), Z.of_nat (length bits) + 1).
Proof.
  intros Hi Hp Hl. unfold process_pulse, bit_of_pulse.
  apply Z.leb_le in Hi. apply Z.eqb_eq in Hp. rewrite Hi, Hp. cbn [andb].
  rewrite !frame_bytes_eq.
  set (q := (length bits / 8)%nat).
  assert (Hq : Z.of_nat (length bits) / 8 = Z.of_nat q)
    by (unfold q; now rewrite Nat2Z.inj_div).
  assert (Hb : (8 * q <= length bits < 8 * q + 8)%nat).
  { unfold q. pose proof (Nat.div_mod_eq (length bits) 8).
    pose proof (Nat.mod_upper_bound (length bits) 8). lia. }
  rewrite Hq.
  assert (Hq5 : (q < 5)%nat) by lia.
  pose proof (shiftl_lor_bit (byte_at bits q) (25 <? c)) as Hv.
  rewrite <- (byte_at_snoc_current bits (25 <? c) q Hb) in Hv.
  assert (Ho : forall k, k <> q ->
            byte_at (bits ++ [25 <? c]) k = byte_at bits k).
  { intros k Hk. destruct (Nat.lt_ge_cases k q).
    - apply byte_at_snoc_full. lia.
    - apply byte_at_snoc_empty. lia. }
  destruct q as [|[|[|[|[|q]]]]]; [| | | | |lia];
    rewrite <- Hv;
    try rewrite (Ho 0%nat) by lia; try rewrite (Ho 1%nat) by lia;
    try rewrite (Ho 2%nat) by lia; try rewrite (Ho 3%nat) by lia;
    try rewrite (Ho 4%nat) by lia;
    clear Hv Ho;
    generalize (byte_at bits 0), (byte_at bits 1), (byte_at bits 2),
               (byte_at bits 3), (byte_at bits 4);
    intros v0 v1 v2 v3 v4; destruct (25 <? c); reflexivity.
Qed.

Lemma process_pulse_overflow (i c : Z) (d : list Z) (jj : Z) :
  4 <= i -> i mod 2 = 0 -> length d = 5%nat -> 40 <= jj ->
  process_pulse i c d jj = None.
Proof.
  intros Hi Hp Hd Hj. unfold process_pulse.
  apply Z.leb_le in Hi. apply Z.eqb_eq in Hp. rewrite Hi, Hp. cbn [andb].
  unfold array_get, in_bounds. rewrite Hd.
  assert (5 <= jj / 8) by (apply Z.div_le_lower_bound; lia).
  destruct (0 <=? jj / 8); cbn [andb]; [|reflexivity].
  destruct (jj / 8 <? Z.of_nat 5) eqn:E; [|reflexivity].
  apply Z.ltb_lt in E. lia.
Qed.

Lemma pairs_ind (A : Type) (P : list A -> Prop) :
  P [] -> (forall x, P [x]) -> (forall x y l, P l -> P (x :: y :: l)) ->
  forall l, P l.
Proof.
  intros H0 H1 H2.
  assert (H : forall l, P l /\ forall x, P (x :: l)).
  { induction l as [|y l [IHa IHb]]; split; auto. }
  intros l. apply H.
Qed.

Lemma every_other_length (l : list Z) :
  length (every_other l) = Nat.div2 (S (length l)).
Proof.
  induction l as [| x | x y l IH] using pairs_ind; try reflexivity.
  cbn [every_other length]. rewrite IH. reflexivity.
Qed.

Lemma frame_bytes_length (bits : list bool) : length (frame_bytes bits) = 5%nat.
Proof. reflexivity. Qed.

Lemma snoc_length (bits : list bool) (b : bool) :
  Z.of_nat (length bits) + 1 = Z.of_nat (length (bits ++ [b])).
Proof. rewrite length_app. cbn [length]. lia. Qed.

Lemma even_step (i : Z) :
  i mod 2 = 0 -> (i + 1) mod 2 = 1 /\ (i + 1 + 1) mod 2 = 0.
Proof.
  intros H. pose proof (Z.div_mod i 2). pose proof (Z.div_mod (i + 1) 2).
  pose proof (Z.div_mod (i + 1 + 1) 2).
  pose proof (Z.mod_pos_bound (i + 1) 2).
  pose proof (Z.mod_pos_bound (i + 1 + 1) 2). lia.
Qed.

(** From an even index past the handshake, the loop body pushes one bit for
    every second pulse. *)
Lemma process_pulses_even (ps : list Z) :
  forall i bits,
    4 <= i -> i mod 2 = 0 ->
    (length (bits ++ map bit_of_pulse (every_other ps)) <= 40)%nat ->
    process_pulses i ps (frame_bytes bits) (Z.of_nat (length bits)) =
    Some (frame_bytes (bits ++ map bit_of_pulse (every_other ps)),
          Z.of_nat (length (bits ++ map bit_of_pulse (every_other ps)))).
Proof.
  induction ps as [| x | x y ps IH] using pairs_ind; intros i bits Hi Hp Hl.
  - cbn. now rewrite app_nil_r.
  - cbn [every_other map process_pulses] in *.
    rewrite length_app in Hl. cbn [length] in Hl.
    rewrite process_pulse_bit by (auto; lia).
    cbn [fst snd]. now rewrite (snoc_length bits (bit_of_pulse x)).
  - cbn [every_other map process_pulses] in *.
    rewrite length_app in Hl. cbn [length] in Hl.
    rewrite process_pulse_bit by (auto; lia). cbn [fst snd].
    destruct (even_step i Hp) as [Ho He].
    rewrite process_pulse_skip by (right; exact Ho). cbn [fst snd].
    rewrite (snoc_length bits (bit_of_pulse x)).
    replace (bits ++ bit_of_pulse x :: map bit_of_pulse (every_other ps))
      with ((bits ++ [bit_of_pulse x]) ++ map bit_of_pulse (every_other ps))
      by (now rewrite <- app_assoc).
    apply IH; [lia | exact He |].
    rewrite !length_app. cbn [length]. lia.
Qed.

(** A 41st bit indexes [data[5]]: undefined behaviour. *)
Lemma process_pulses_even_overflow (ps : list Z) :
  forall i bits,
    4 <= i -> i mod 2 = 0 -> (length bits <= 40)%nat ->
    (40 < length (bits ++ map bit_of_pulse (every_other ps)))%nat ->
    process_pulses i ps (frame_bytes bits) (Z.of_nat (length bits)) = None.
Proof.
  induction ps as [| x | x y ps IH] using pairs_ind;
    intros i bits Hi Hp Hb Hl.
  - cbn in Hl. rewrite app_nil_r in Hl. lia.
  - cbn [every_other map process_pulses] in *.
    rewrite length_app in Hl. cbn [length] in Hl.
    rewrite process_pulse_overflow; auto using frame_bytes_length. lia.
  - cbn [every_other map process_pulses] in *.
    destruct (Nat.eq_dec (length bits) 40) as [E|E].
    + rewrite process_pulse_overflow; auto using frame_bytes_length. lia.
    + rewrite process_pulse_bit by (auto; lia). cbn [fst snd].
      destruct (even_step i Hp) as [Ho He].
      rewrite process_pulse_skip by (right; exact Ho). cbn [fst snd].
      rewrite (snoc_length bits (bit_of_pulse x)).
      apply IH; [lia | exact He | |].
      * rewrite length_app. cbn [length]. lia.
      * rewrite <- app_assoc. exact Hl.
Qed.

Lemma process_pulses_handshake (ps : list Z) (d : list Z) (jj : Z) :
  process_pulses 0 ps d jj = process_pulses 4 (skipn 4 ps) d jj
  \/ (skipn 4 ps = [] /\ process_pulses 0 ps d jj = Some (d, jj)).
Proof.
  destruct ps as [|p0 [|p1 [|p2 [|p3 ps]]]]; cbn [skipn process_pulses];
    repeat (rewrite process_pulse_skip by (left; lia); cbn [fst snd]);
    auto.
Qed.

(** The loop body over a whole capture: the frame of its data bits. *)
Lemma process_pulses_frame (ps : list Z) :
  (length (data_bits ps) <= 40)%nat ->
  process_pulses 0 ps [0; 0; 0; 0; 0] 0 =
  Some (frame_bytes (data_bits ps), Z.of_nat (length (data_bits ps))).
Proof.
  intros Hl. unfold data_bits in *.
  destruct (process_pulses_handshake ps [0; 0; 0; 0; 0] 0) as [H|[H1 H2]].
  - rewrite H. apply (process_pulses_even (skipn 4 ps) 4 []); auto; lia.
  - rewrite H2, H1. reflexivity.
Qed.

Lemma process_pulses_undefined (ps : list Z) :
  (40 < length (data_bits ps))%nat ->
  process_pulses 0 ps [0; 0; 0; 0; 0] 0 = None.
Proof.
  intros Hl. unfold data_bits in *.
  destruct (process_pulses_handshake ps [0; 0; 0; 0; 0] 0) as [H|[H1 H2]].
  - rewrite H.
    apply (process_pulses_even_overflow (skipn 4 ps) 4 []); cbn; auto; lia.
  - rewrite H1 in Hl. cbn in Hl. lia.
Qed.

Lemma data_bits_length (ps : list Z) :
  length (data_bits ps) = Nat.div2 (S (length ps - 4)).
Proof.
  unfold data_bits. now rewrite length_map, every_other_length, length_skipn.
Qed.

(** ** One attempt, in terms of the frame it captured *)

Lemma attempt_frame (gpioRead : nat -> Z) :
  (length (data_bits (pulses gpioRead)) <= 40)%nat ->
  dht22_read_single_attempt gpioRead =
  verify (frame_bytes (data_bits (pulses gpioRead)))
         (Z.of_nat (length (data_bits (pulses gpioRead)))).
Proof.
  intros Hl. unfold dht22_read_single_attempt.
  pose proof (read_loop_capture gpioRead MAX_TIMINGS 0 loop_init) as H.
  cbn [loop_init lastState reads data j] in H. fold (pulses gpioRead) in H.
  rewrite (process_pulses_frame _ Hl) in H.
  destruct (read_loop gpioRead MAX_TIMINGS 0 loop_init) as [st|];
    cbn [option_map] in H; [|discriminate].
  injection H as Hd Hj. now rewrite Hd, Hj.
Qed.

Lemma attempt_undefined (gpioRead : nat -> Z) :
  (40 < length (data_bits (pulses gpioRead)))%nat ->
  dht22_read_single_attempt gpioRead = None.
Proof.
  intros Hl. unfold dht22_read_single_attempt.
  pose proof (read_loop_capture gpioRead MAX_TIMINGS 0 loop_init) as H.
  cbn [loop_init lastState reads data j] in H. fold (pulses gpioRead) in H.
  rewrite (process_pulses_undefined _ Hl) in H.
  destruct (read_loop gpioRead MAX_TIMINGS 0 loop_init) as [st|];
    cbn [option_map] in H; [discriminate | reflexivity].
Qed.

Lemma verify_eq (d0 d1 d2 d3 d4 jj : Z) :
  verify [d0; d1; d2; d3; d4] jj =
  if (40 <=? jj) && (d4 =? Z.land (d0 + d1 + d2 + d3) 255) then
    Some (mkAttempt 0
            (if Z.land d2 128 =? 0
             then CFloat.div10 (Z.shiftl (Z.land d2 127) 8 + d3)
             else CFloat.neg (CFloat.div10 (Z.shiftl (Z.land d2 127) 8 + d3)))
            (CFloat.div10 (Z.shiftl d0 8 + d1)))
  else Some failure.
Proof. unfold verify. destruct (40 <=? jj); reflexivity. Qed.

Lemma verify_short (d : list Z) (jj : Z) :
  length d = 5%nat -> jj < 40 -> verify d jj = Some failure.
Proof.
  intros Hd Hj.
  destruct d as [|d0 [|d1 [|d2 [|d3 [|d4 [|d5 d]]]]]]; try discriminate.
  rewrite verify_eq.
  destruct (40 <=? jj) eqn:E; [apply Z.leb_le in E; lia | reflexivity].
Qed.

Lemma verify_mismatch (d0 d1 d2 d3 d4 jj : Z) :
  d4 <> Z.land (d0 + d1 + d2 + d3) 255 ->
  verify [d0; d1; d2; d3; d4] jj = Some failure.
Proof.
  intros H. rewrite verify_eq.
  apply Z.eqb_neq in H. rewrite H. now rewrite andb_false_r.
Qed.

Lemma verify_codes (d : list Z) (jj : Z) (r : attempt_result) :
  verify d jj = Some r -> ret r = 0 \/ ret r = 1.
Proof.
  unfold verify. intros H.
  destruct (40 <=? jj); [|injection H as <-; cbn; auto].
  destruct (array_get d 0); [|discriminate].
  destruct (array_get d 1); [|discriminate].
  destruct (array_get d 2); [|discriminate].
  destruct (array_get d 3); [|discriminate].
  destruct (array_get d 4); [|discriminate].
  destruct (_ =? _); injection H as <-; cbn; auto.
Qed.

Lemma land_shiftl8_low (a b : Z) :
  0 <= b < 256 -> Z.land (Z.shiftl a 8) b = 0.
Proof.
  intros Hb. apply Z.bits_inj'. intros n Hn.
  rewrite Z.land_spec, Z.bits_0.
  destruct (Z.lt_ge_cases n 8).
  - rewrite Z.shiftl_spec_low by lia. reflexivity.
  - rewrite (Z.bits_above_log2 b n), andb_false_r; [reflexivity | lia |].
    destruct (Z.eq_dec b 0) as [->|]; [cbn; lia|].
    apply Z.lt_le_trans with 8; [|lia].
    apply Z.log2_lt_pow2; lia.
Qed.

Lemma shiftl8_add_lor (a b : Z) :
  0 <= b < 256 -> Z.shiftl a 8 + b = Z.lor (Z.shiftl a 8) b.
Proof.
  intros Hb.
  rewrite <- Z.lxor_lor, <- Z.add_nocarry_lxor; auto using land_shiftl8_low.
Qed.

Lemma land_128_sign (b : Z) :
  (Z.land b 128 =? 0) = negb (Z.testbit b 7).
Proof.
  destruct (Z.testbit b 7) eqn:E; cbn [negb].
  - apply Z.eqb_neq. intros H.
    apply (f_equal (fun z => Z.testbit z 7)) in H.
    rewrite Z.land_spec, E in H. discriminate.
  - apply Z.eqb_eq. apply Z.bits_inj'. intros n Hn.
    rewrite Z.land_spec, Z.bits_0. change 128 with (2 ^ 7).
    rewrite Z.pow2_bits_eqb by lia.
    destruct (Z.eqb_spec 7 n) as [<-|]; [now rewrite E | apply andb_false_r].
Qed.

Lemma verify_valid (d0 d1 d2 d3 d4 jj : Z) :
  0 <= d1 < 256 -> 0 <= d3 < 256 -> 40 <= jj ->
  d4 = Z.land (d0 + d1 + d2 + d3) 255 ->
  verify [d0; d1; d2; d3; d4] jj =
  Some (mkAttempt 0 (frame_temperature d2 d3) (frame_humidity d0 d1)).
Proof.
  intros H1 H3 Hj Hc. rewrite verify_eq.
  apply Z.leb_le in Hj. apply Z.eqb_eq in Hc. rewrite Hj, Hc. cbn [andb].
  unfold frame_temperature, frame_humidity.
  rewrite land_128_sign, !shiftl8_add_lor by assumption.
  destruct (Z.testbit d2 7); reflexivity.
Qed.

Lemma data_bits_bound (gpioRead : nat -> Z) :
  (length (data_bits (pulses gpioRead)) <= 41)%nat /\
  ((40 < length (data_bits (pulses gpioRead)))%nat <->
   length (pulses gpioRead) = 85%nat).
Proof.
  pose proof (pulses_length gpioRead) as H.
  rewrite data_bits_length, Nat.div2_div.
  pose proof (Nat.div_mod_eq (S (length (pulses gpioRead) - 4)) 2) as Hd.
  pose proof (Nat.mod_upper_bound (S (length (pulses gpioRead) - 4)) 2) as Hm.
  lia.
Qed.

(** With at most 40 data bits captured, the loop ends with [data] holding
    the frame of those bits and [j] their number. *)
Lemma capture_loop_frame (gpioRead : nat -> Z) :
  (length (data_bits (pulses gpioRead)) <= 40)%nat ->
  exists st,
    read_loop gpioRead MAX_TIMINGS 0 loop_init = Some st /\
    data st = frame_bytes (data_bits (pulses gpioRead)) /\
    j st = Z.of_nat (length (data_bits (pulses gpioRead))).
Proof.
  intros Hl.
  pose proof (read_loop_capture gpioRead MAX_TIMINGS 0 loop_init) as H.
  cbn [loop_init lastState reads data j] in H. fold (pulses gpioRead) in H.
  rewrite (process_pulses_frame _ Hl) in H.
  destruct (read_loop gpioRead MAX_TIMINGS 0 loop_init) as [st|];
    cbn [option_map] in H; [|discriminate].
  injection H as Hd Hj. exists st. auto.
Qed.

Lemma attempt_short (gpioRead : nat -> Z) :
  (length (data_bits (pulses gpioRead)) < 40)%nat ->
  dht22_read_single_attempt gpioRead = Some failure.
Proof.
  intros Hl. rewrite attempt_frame by lia.
  apply verify_short; [apply frame_bytes_length | lia].
Qed.

Lemma attempt_mismatch (gpioRead : nat -> Z) (b0 b1 b2 b3 b4 : Z) :
  (length (data_bits (pulses gpioRead)) <= 40)%nat ->
  frame_bytes (data_bits (pulses gpioRead)) = [b0; b1; b2; b3; b4] ->
  b4 <> Z.land (b0 + b1 + b2 + b3) 255 ->
  dht22_read_single_attempt gpioRead = Some failure.
Proof.
  intros Hl Hf Hc. rewrite attempt_frame, Hf by lia.
  now apply verify_mismatch.
Qed.

(** ** The claims on one read attempt *)

(** C1: a capture of exactly 40 data bits whose bytes b0..b4 satisfy
    b4 = (b0+b1+b2+b3) & 0xFF makes the read return 0 with humidity
    ((b0<<8)|b1)/10.0 and temperature (((b2&0x7F)<<8)|b3)/10.0, negated
    exactly when bit 7 of b2 is set. *)
Theorem read_valid_frame (gpioRead : nat -> Z) (b0 b1 b2 b3 b4 : Z) :
  length (data_bits (pulses gpioRead)) = 40%nat ->
  frame_bytes (data_bits (pulses gpioRead)) = [b0; b1; b2; b3; b4] ->
  b4 = Z.land (b0 + b1 + b2 + b3) 255 ->
  dht22_read_single_attempt gpioRead =
  Some (mkAttempt 0 (frame_temperature b2 b3) (frame_humidity b0 b1)).
Proof.
  intros Hl Hf Hc. rewrite attempt_frame by lia.
  rewrite Hl. rewrite frame_bytes_eq in Hf.
  injection Hf as <- <- <- <- <-.
  apply verify_valid; auto using byte_at_range. lia.
Qed.

Lemma read_valid_frame_witness :
  dht22_read_single_attempt (sensor_line [2; 140; 1; 93; 236]) =
  Some (mkAttempt 0 (frame_temperature 1 93) (frame_humidity 2 140)).
Proof.
  apply (read_valid_frame (sensor_line [2; 140; 1; 93; 236]) 2 140 1 93 236);
    vm_compute; reflexivity.
Defined.

(** C2 (the code departs from it): with fewer than 40 data bits the read
    returns 1, the very value it returns for a checksum mismatch; here on a
    line where no sensor answers, next to a full frame with a bad checksum. *)
Theorem timeout_returns_checksum_code :
  length (data_bits (pulses stuck_line)) = 0%nat /\
  dht22_read_single_attempt stuck_line = Some failure /\
  length (data_bits (pulses (sensor_line [2; 140; 1; 93; 228]))) = 40%nat /\
  dht22_read_single_attempt (sensor_line [2; 140; 1; 93; 228]) = Some failure.
Proof. vm_compute. auto. Qed.

(** C3: a capture of 40 data bits whose checksum byte differs from
    (b0+b1+b2+b3) & 0xFF makes the read return 1 (the checksum failure, not
    the success code 0) with temperature and humidity left at 0. *)
Theorem read_bad_checksum (gpioRead : nat -> Z) (b0 b1 b2 b3 b4 : Z) :
  length (data_bits (pulses gpioRead)) = 40%nat ->
  frame_bytes (data_bits (pulses gpioRead)) = [b0; b1; b2; b3; b4] ->
  b4 <> Z.land (b0 + b1 + b2 + b3) 255 ->
  dht22_read_single_attempt gpioRead =
  Some (mkAttempt 1 CFloat.zero CFloat.zero).
Proof.
  intros Hl Hf Hc. apply (attempt_mismatch gpioRead b0 b1 b2 b3 b4); auto. lia.
Qed.

Lemma read_bad_checksum_witness :
  dht22_read_single_attempt (sensor_line [2; 140; 1; 93; 228]) =
  Some (mkAttempt 1 CFloat.zero CFloat.zero).
Proof.
  apply (read_bad_checksum (sensor_line [2; 140; 1; 93; 228]) 2 140 1 93 228);
    vm_compute; [reflexivity | reflexivity | discriminate].
Defined.

(** C4 (the code departs from it): on a capture of 85 pulses the loop takes
    a 41st data bit; the first 84 pulses fill the five bytes ([j] = 40), and
    the pulse of iteration 84 then shifts [data[5]], outside the array:
    undefined behaviour. *)
Theorem forty_first_bit_out_of_bounds :
  length (pulses toggling_line) = 85%nat /\
  length (data_bits (pulses toggling_line)) = 41%nat /\
  option_map (fun st => (data st, j st))
             (read_loop toggling_line 84 0 loop_init)
  = Some ([0; 0; 0; 0; 0], 40) /\
  process_pulse 84 0 [0; 0; 0; 0; 0] 40 = None /\
  read_loop toggling_line MAX_TIMINGS 0 loop_init = None /\
  dht22_read_single_attempt toggling_line = None.
Proof. vm_compute. auto 10. Qed.

(** C9: the read returns 0 or 1 and nothing else; a capture of fewer than
    40 bits and a checksum mismatch both give 1 with the outputs at 0.  The
    read has no defined result exactly on a capture of 85 pulses. *)
Theorem return_codes (gpioRead : nat -> Z) :
  (forall r, dht22_read_single_attempt gpioRead = Some r ->
             ret r = 0 \/ ret r = 1) /\
  ((length (data_bits (pulses gpioRead)) < 40)%nat ->
   dht22_read_single_attempt gpioRead = Some failure) /\
  (forall b0 b1 b2 b3 b4,
     length (data_bits (pulses gpioRead)) = 40%nat ->
     frame_bytes (data_bits (pulses gpioRead)) = [b0; b1; b2; b3; b4] ->
     b4 <> Z.land (b0 + b1 + b2 + b3) 255 ->
     dht22_read_single_attempt gpioRead = Some failure) /\
  (dht22_read_single_attempt gpioRead = None <->
   length (pulses gpioRead) = 85%nat).
Proof.
  destruct (data_bits_bound gpioRead) as [Hb Hu].
  split; [|split; [|split]].
  - intros r Hr.
    destruct (Nat.le_gt_cases (length (data_bits (pulses gpioRead))) 40)
      as [Hl|Hl].
    + rewrite attempt_frame in Hr by exact Hl. eapply verify_codes; eauto.
    + rewrite attempt_undefined in Hr by exact Hl. discriminate.
  - apply attempt_short.
  - intros b0 b1 b2 b3 b4 Hl Hf Hc.
    apply (attempt_mismatch gpioRead b0 b1 b2 b3 b4); auto. lia.
  - split; intros H.
    + apply Hu.
      destruct (Nat.le_gt_cases (length (data_bits (pulses gpioRead))) 40)
        as [Hl|Hl]; [|exact Hl].
      rewrite attempt_frame in H by exact Hl.
      rewrite frame_bytes_eq, verify_eq in H.
      destruct (_ && _); discriminate.
    + apply attempt_undefined. now apply Hu.
Qed.

Lemma return_codes_witness :
  dht22_read_single_attempt stuck_line = Some failure.
Proof.
  apply (proj1 (proj2 (return_codes stuck_line))).
  replace (length (data_bits (pulses stuck_line))) with 0%nat
    by (vm_compute; reflexivity).
  lia.
Defined.

(** ** The retry loop *)

(** One turn of the loop, by cases. *)
Lemma retry_loop_cases (ci : cycle_input) (n a : nat)
      (s s' : module_state) (tr : list event) :
  retry_loop ci (S n) a s = Some (s', tr) ->
  (stop_before ci a = true /\ s' = s /\ tr = [])
  \/ (stop_before ci a = false /\
      exists r, dht22_read_single_attempt (line ci a) = Some r /\
        ((ret r = 0 /\ s' = publish r s /\
          tr = [Attempt a 0; Publish (temperature r) (humidity r);
                Printf (temperature r) (humidity r)])
         \/ (ret r <> 0 /\
             exists rest, retry_loop ci n (S a) s = Some (s', rest) /\
               tr = Attempt a (ret r) ::
                    if retry_guard ci a then Usleep 200000 :: rest else rest))).
Proof.
  cbn [retry_loop]. intros H.
  destruct (stop_before ci a); [left; now inversion H | right].
  split; [reflexivity|].
  destruct (dht22_read_single_attempt (line ci a)) as [r|]; [|discriminate].
  exists r. split; [reflexivity|].
  destruct (Z.eqb_spec (ret r) 0) as [E|E].
  - left. rewrite E in H. now inversion H.
  - right. split; [exact E|].
    destruct (retry_loop ci n (S a) s) as [[s1 rest]|]; [|discriminate].
    cbn [fst snd] in H. exists rest. now inversion H.
Qed.

Lemma retry_guard_bound (ci : cycle_input) (a : nat) :
  retry_guard ci a = true -> (a < 4)%nat /\ stop_after ci a = false.
Proof.
  unfold retry_guard, MAX_READ_ATTEMPTS. intros H.
  apply andb_prop in H as [H1 H2]. apply Z.ltb_lt in H1.
  apply negb_true_iff in H2. split; [lia | exact H2].
Qed.

Lemma retry_guard_false (ci : cycle_input) (a : nat) :
  retry_guard ci a = false -> (4 <= a)%nat \/ stop_after ci a = true.
Proof.
  unfold retry_guard, MAX_READ_ATTEMPTS. intros H.
  apply andb_false_iff in H as [H|H].
  - apply Z.ltb_ge in H. left. lia.
  - apply negb_false_iff in H. now right.
Qed.

(** The loop has a defined result when every attempt has one. *)
Lemma retry_loop_defined (ci : cycle_input) :
  (forall a, dht22_read_single_attempt (line ci a) <> None) ->
  forall n a s, exists s' tr, retry_loop ci n a s = Some (s', tr).
Proof.
  intros Hd. induction n as [|n IH]; intros a s; cbn [retry_loop].
  - eauto.
  - destruct (stop_before ci a); [eauto|].
    specialize (Hd a).
    destruct (dht22_read_single_attempt (line ci a)) as [r|]; [|congruence].
    destruct (ret r =? 0); [eauto|].
    destruct (IH (S a) s) as (s1 & rest & ->). cbn [fst snd]. eauto.
Qed.

Lemma retry_loop_count (ci : cycle_input) :
  forall n a s s' tr,
    retry_loop ci n a s = Some (s', tr) -> (count_attempts tr <= n)%nat.
Proof.
  induction n as [|n IH]; intros a s s' tr H.
  - inversion H. cbn. lia.
  - apply retry_loop_cases in H
      as [(_ & _ & ->) | (_ & r & _ & [(_ & _ & ->) | (_ & rest & Hr & ->)])].
    + cbn. lia.
    + cbn. lia.
    + apply IH in Hr. unfold count_attempts in *.
      destruct (retry_guard ci a); cbn; lia.
Qed.

(** Nothing but the publication follows a successful attempt. *)
Lemma retry_loop_success_last (ci : cycle_input) :
  forall n a s s' tr pre k post,
    retry_loop ci n a s = Some (s', tr) ->
    tr = pre ++ Attempt k 0 :: post ->
    exists t h, post = [Publish t h; Printf t h].
Proof.
  induction n as [|n IH]; intros a s s' tr pre k post H Ht.
  - inversion H; subst. destruct pre; discriminate.
  - apply retry_loop_cases in H
      as [(_ & _ & ->) | (_ & r & _ & [(_ & _ & ->) | (E & rest & Hr & ->)])].
    + destruct pre; discriminate.
    + destruct pre as [|e1 [|e2 [|e3 [|e4 pre]]]]; try discriminate.
      inversion Ht; subst. eauto.
    + destruct pre as [|e1 pre]; cbn [app] in Ht.
      * inversion Ht. congruence.
      * injection Ht as _ Ht.
        destruct (retry_guard ci a); [|now apply (IH _ _ _ _ _ _ _ Hr Ht)].
        destruct pre as [|e2 pre]; cbn [app] in Ht; [discriminate|].
        injection Ht as _ Ht. now apply (IH _ _ _ _ _ _ _ Hr Ht).
Qed.

(** A retry sleep lasts 200 ms and comes right after a failed attempt that
    is not the fifth. *)
Lemma retry_loop_sleep_place (ci : cycle_input) :
  forall n a s s' tr pre usec post,
    retry_loop ci n a s = Some (s', tr) ->
    tr = pre ++ Usleep usec :: post ->
    usec = 200000 /\
    exists pre' k rc,
      pre = pre' ++ [Attempt k rc] /\ rc <> 0 /\ (k < 4)%nat.
Proof.
  induction n as [|n IH]; intros a s s' tr pre usec post H Ht.
  - inversion H; subst. destruct pre; discriminate.
  - apply retry_loop_cases in H
      as [(_ & _ & ->) | (_ & r & _ & [(_ & _ & ->) | (E & rest & Hr & ->)])].
    + destruct pre; discriminate.
    + destruct pre as [|e1 [|e2 [|e3 [|e4 pre]]]]; discriminate.
    + destruct pre as [|e1 pre]; cbn [app] in Ht; [discriminate|].
      injection Ht as <- Ht.
      destruct (retry_guard ci a) eqn:G.
      * destruct pre as [|e2 pre]; cbn [app] in Ht.
        -- injection Ht as <- _. split; [reflexivity|].
           exists [], a, (ret r). apply retry_guard_bound in G. intuition.
        -- injection Ht as <- Ht.
           destruct (IH _ _ _ _ _ _ _ Hr Ht) as (Hu & p & k & rc & -> & Hk).
           split; [exact Hu|].
           exists (Attempt a (ret r) :: Usleep 200000 :: p), k, rc. auto.
      * destruct (IH _ _ _ _ _ _ _ Hr Ht) as (Hu & p & k & rc & -> & Hk).
        split; [exact Hu|].
        exists (Attempt a (ret r) :: p), k, rc. auto.
Qed.

(** Two attempts follow each other without a sleep only when the stop flag
    was seen set after the first. *)
Lemma retry_loop_between (ci : cycle_input) :
  forall n a s s' tr pre k rc k' rc' post,
    (a + n = 5)%nat ->
    retry_loop ci n a s = Some (s', tr) ->
    tr = pre ++ Attempt k rc :: Attempt k' rc' :: post ->
    stop_after ci k = true.
Proof.
  induction n as [|n IH]; intros a s s' tr pre k rc k' rc' post Hn H Ht.
  - inversion H; subst. destruct pre; discriminate.
  - apply retry_loop_cases in H
      as [(_ & _ & ->) | (_ & r & _ & [(_ & _ & ->) | (E & rest & Hr & ->)])].
    + destruct pre; discriminate.
    + destruct pre as [|e1 [|e2 [|e3 [|e4 pre]]]]; discriminate.
    + assert (Hn' : (S a + n = 5)%nat) by lia.
      destruct pre as [|e1 pre]; cbn [app] in Ht.
      * injection Ht as <- _ Ht.
        destruct (retry_guard ci a) eqn:G; [discriminate|].
        apply retry_guard_false in G as [G|G]; [|exact G].
        assert (n = 0%nat) by lia. subst n. inversion Hr; subst. discriminate.
      * injection Ht as _ Ht.
        destruct (retry_guard ci a);
          [|now apply (IH _ _ _ _ _ _ _ _ _ _ Hn' Hr Ht)].
        destruct pre as [|e2 pre]; cbn [app] in Ht; [discriminate|].
        injection Ht as _ Ht. now apply (IH _ _ _ _ _ _ _ _ _ _ Hn' Hr Ht).
Qed.

(** Once the loop condition sees the stop flag, no further attempt is made;
    and the attempts made are numbered below 5. *)
Lemma retry_loop_cancel (ci : cycle_input) :
  forall n a s s' tr k rc,
    retry_loop ci n a s = Some (s', tr) ->
    In (Attempt k rc) tr ->
    (a <= k < a + n)%nat /\
    forall c, (a <= c)%nat -> stop_before ci c = true -> (k < c)%nat.
Proof.
  induction n as [|n IH]; intros a s s' tr k rc H Hin.
  - inversion H; subst. destruct Hin.
  - apply retry_loop_cases in H
      as [(_ & _ & ->) | (Hs & r & _ & [(_ & _ & ->) | (E & rest & Hr & ->)])].
    + destruct Hin.
    + destruct Hin as [Hin|[Hin|[Hin|[]]]]; try discriminate.
      injection Hin as <- _. split; [lia|].
      intros c Hc Hsc. destruct (Nat.eq_dec c a); [congruence | lia].
    + assert (Hcase : Attempt a (ret r) = Attempt k rc
                      \/ In (Attempt k rc) rest).
      { destruct Hin as [Hin|Hin]; [now left|].
        destruct (retry_guard ci a); [|now right].
        destruct Hin as [Hin|Hin]; [discriminate | now right]. }
      destruct Hcase as [Hin'|Hin'].
      * injection Hin' as <- _. split; [lia|].
        intros c Hc Hsc. destruct (Nat.eq_dec c a); [congruence | lia].
      * destruct (IH _ _ _ _ _ _ Hr Hin') as [Hk Hc]. split; [lia|].
        intros c Hac Hsc. destruct (Nat.eq_dec c a); [congruence|].
        apply Hc; [lia | exact Hsc].
Qed.

(** The loop leaves the state alone or publishes one reading. *)
Lemma retry_loop_state (ci : cycle_input) :
  forall n a s s' tr,
    retry_loop ci n a s = Some (s', tr) ->
    (s' = s /\ forall k, ~ In (Attempt k 0) tr)
    \/ (exists r k, s' = publish r s /\ In (Attempt k 0) tr).
Proof.
  induction n as [|n IH]; intros a s s' tr H.
  - inversion H; subst. left. split; auto.
  - apply retry_loop_cases in H
      as [(_ & -> & ->) | (_ & r & _ & [(_ & -> & ->) | (E & rest & Hr & ->)])].
    + left. split; auto.
    + right. exists r, a. split; [reflexivity | now left].
    + destruct (IH _ _ _ _ Hr) as [[-> Hno] | (r' & k & -> & Hin)].
      * left. split; [reflexivity|]. intros k [Hin|Hin].
        -- inversion Hin. congruence.
        -- destruct (retry_guard ci a); [destruct Hin as [Hin|Hin]|];
             try discriminate; now apply (Hno k).
      * right. exists r', k. split; [reflexivity|]. right.
        destruct (retry_guard ci a); [now right | exact Hin].
Qed.

Lemma poll_cycle_state (ci : cycle_input) (s s' : module_state)
      (tr : list event) :
  poll_cycle ci s = Some (s', tr) ->
  (s' = s /\ forall k, ~ In (Attempt k 0) tr)
  \/ (exists r k, s' = publish r s /\ In (Attempt k 0) tr).
Proof.
  unfold poll_cycle. intros H.
  destruct (retry_loop ci MAX_READ_ATTEMPTS 0 s) as [[s1 tr1]|] eqn:E;
    [|discriminate].
  cbn [fst snd] in H. injection H as <- <-.
  assert (Hw : forall n i k, ~ In (Attempt k 0) (interval_wait ci n i)).
  { induction n as [|n IH]; intros i k; cbn; [tauto|].
    destruct (stop_wait ci i); cbn; [tauto|].
    intros [Hin|Hin]; [discriminate | now apply (IH (S i) k)]. }
  destruct (retry_loop_state _ _ _ _ _ _ E) as [[-> Hno]|(r & k & -> & Hin)].
  - left. split; [reflexivity|]. intros k Hin.
    apply in_app_or in Hin as [Hin|Hin];
      [now apply (Hno k) | exact (Hw SENSOR_POLL_INTERVAL_SEC 0%nat k Hin)].
  - right. exists r, k. split; [reflexivity|]. apply in_or_app. now left.
Qed.

Lemma poll_cycle_defined (ci : cycle_input) (s : module_state) :
  (forall a, dht22_read_single_attempt (line ci a) <> None) ->
  exists s' tr, poll_cycle ci s = Some (s', tr).
Proof.
  intros Hd. unfold poll_cycle.
  destruct (retry_loop_defined ci Hd MAX_READ_ATTEMPTS 0%nat s)
    as (s1 & tr1 & ->).
  cbn [fst snd]. eauto.
Qed.

Lemma silent_cycle_defined :
  forall a, dht22_read_single_attempt (line silent_cycle a) <> None.
Proof. intros a. vm_compute. discriminate. Qed.

(** Five failures in a row, nobody asking to stop: five attempts, a sleep
    between each two, none after the fifth. *)
Example silent_retry_trace :
  retry_loop silent_cycle MAX_READ_ATTEMPTS 0 initial_state =
  Some (initial_state,
        [Attempt 0 1; Usleep 200000; Attempt 1 1; Usleep 200000; Attempt 2 1;
         Usleep 200000; Attempt 3 1; Usleep 200000; Attempt 4 1]).
Proof. vm_compute. reflexivity. Qed.

Example good_retry_trace :
  retry_loop good_cycle MAX_READ_ATTEMPTS 0 initial_state =
  Some (mkState (frame_temperature 1 93) (frame_humidity 2 140) 1 (-1) 0 0,
        [Attempt 0 0; Publish (frame_temperature 1 93) (frame_humidity 2 140);
         Printf (frame_temperature 1 93) (frame_humidity 2 140)]).
Proof. vm_compute. reflexivity. Qed.

(** ** The claims on the polling thread *)

(** The loop starts with an attempt unless the stop flag is already set. *)
Lemma retry_loop_head (ci : cycle_input) (n a : nat) (s s' : module_state)
      (tr : list event) :
  retry_loop ci (S n) a s = Some (s', tr) ->
  if stop_before ci a then tr = []
  else exists rc post, tr = Attempt a rc :: post.
Proof.
  intros H. apply retry_loop_cases in H
    as [(-> & _ & ->) | (-> & r & _ & [(_ & _ & ->) | (_ & rest & _ & ->)])];
    eauto.
Qed.

(** What follows a failed attempt: the retry sleep when its guard holds,
    then the next attempt, unless this was the fifth or the loop condition
    sees the stop flag. *)
Lemma retry_loop_next (ci : cycle_input) :
  forall n a s s' tr pre k rc post,
    (a + n = 5)%nat ->
    retry_loop ci n a s = Some (s', tr) ->
    tr = pre ++ Attempt k rc :: post ->
    rc <> 0 ->
    exists post',
      post = (if retry_guard ci k then [Usleep 200000] else []) ++ post' /\
      if (k <? 4)%nat && negb (stop_before ci (S k))
      then exists rc' post'', post' = Attempt (S k) rc' :: post''
      else post' = [].
Proof.
  induction n as [|n IH]; intros a s s' tr pre k rc post Hn H Ht Hrc.
  - inversion H; subst. destruct pre; discriminate.
  - apply retry_loop_cases in H
      as [(_ & _ & ->) | (_ & r & _ & [(E & _ & ->) | (E & rest & Hr & ->)])].
    + destruct pre; discriminate.
    + destruct pre as [|e1 [|e2 [|e3 [|e4 pre]]]]; try discriminate.
      injection Ht as _ Ht _. congruence.
    + assert (Hn' : (S a + n = 5)%nat) by lia.
      destruct pre as [|e1 pre]; cbn [app] in Ht.
      * injection Ht as <- _ <-. exists rest. split.
        -- destruct (retry_guard ci a); reflexivity.
        -- destruct n as [|n].
           ++ assert (a = 4%nat) by lia. subst a.
              inversion Hr; subst. reflexivity.
           ++ destruct (Nat.ltb_spec a 4) as [_|Hge]; [|lia].
              pose proof (retry_loop_head _ _ _ _ _ _ Hr) as Hh.
              destruct (stop_before ci (S a)); exact Hh.
      * injection Ht as _ Ht.
        destruct (retry_guard ci a);
          [|now apply (IH _ _ _ _ _ _ _ _ Hn' Hr Ht)].
        destruct pre as [|e2 pre]; cbn [app] in Ht; [discriminate|].
        injection Ht as _ Ht. now apply (IH _ _ _ _ _ _ _ _ Hn' Hr Ht).
Qed.

(** An attempt in the trace carries the code its read returned; when that
    is 0, the values of the read are published and end the loop. *)
Lemma retry_loop_values (ci : cycle_input) :
  forall n a s s' tr pre k rc post,
    retry_loop ci n a s = Some (s', tr) ->
    tr = pre ++ Attempt k rc :: post ->
    exists r,
      dht22_read_single_attempt (line ci k) = Some r /\ ret r = rc /\
      (rc = 0 ->
       post = [Publish (temperature r) (humidity r);
               Printf (temperature r) (humidity r)] /\
       s' = publish r s).
Proof.
  induction n as [|n IH]; intros a s s' tr pre k rc post H Ht.
  - inversion H; subst. destruct pre; discriminate.
  - apply retry_loop_cases in H
      as [(_ & _ & ->)
         | (_ & r & Ha & [(E & -> & ->) | (E & rest & Hr & ->)])].
    + destruct pre; discriminate.
    + destruct pre as [|e1 [|e2 [|e3 [|e4 pre]]]]; try discriminate.
      injection Ht as <- <- <-. exists r. auto.
    + destruct pre as [|e1 pre]; cbn [app] in Ht.
      * injection Ht as <- <- _. exists r.
        split; [exact Ha|]. split; [reflexivity|]. intros H0. congruence.
      * injection Ht as _ Ht.
        destruct (retry_guard ci a);
          [|now apply (IH _ _ _ _ _ _ _ _ Hr Ht)].
        destruct pre as [|e2 pre]; cbn [app] in Ht; [discriminate|].
        injection Ht as _ Ht. now apply (IH _ _ _ _ _ _ _ _ Hr Ht).
Qed.

(** C6: in a poll cycle the retry loop makes at most 5 attempts; nothing
    but the publication follows a successful attempt; every retry sleep
    lasts 200 ms and comes right after a failed attempt that is not the
    fifth, and one separates two attempts unless the stop flag was seen set
    in between; once the loop condition sees the stop flag no further
    attempt is made.  And the loop does retry: it starts with attempt 0
    unless the stop flag is set at once; each attempt in the trace carries
    the code of its read, and a code 0 publishes the values of that read;
    a failed attempt is followed by the 200 ms sleep when its guard holds
    and then by the next attempt, unless it was the fifth or the loop
    condition sees the stop flag. *)
Theorem retry_policy (ci : cycle_input) (s : module_state) :
  (forall a, dht22_read_single_attempt (line ci a) <> None) ->
  exists s' tr,
    retry_loop ci MAX_READ_ATTEMPTS 0 s = Some (s', tr) /\
    (count_attempts tr <= 5)%nat /\
    (forall pre k post,
        tr = pre ++ Attempt k 0 :: post ->
        exists t h, post = [Publish t h; Printf t h]) /\
    (forall pre usec post,
        tr = pre ++ Usleep usec :: post ->
        usec = 200000 /\
        exists pre' k rc,
          pre = pre' ++ [Attempt k rc] /\ rc <> 0 /\ (k < 4)%nat) /\
    (forall pre k rc k' rc' post,
        tr = pre ++ Attempt k rc :: Attempt k' rc' :: post ->
        stop_after ci k = true) /\
    (forall k rc c,
        In (Attempt k rc) tr -> stop_before ci c = true -> (k < c)%nat) /\
    (if stop_before ci 0 then tr = []
     else exists rc post, tr = Attempt 0 rc :: post) /\
    (forall pre k rc post,
        tr = pre ++ Attempt k rc :: post ->
        exists r,
          dht22_read_single_attempt (line ci k) = Some r /\ ret r = rc /\
          (rc = 0 ->
           post = [Publish (temperature r) (humidity r);
                   Printf (temperature r) (humidity r)] /\
           s' = publish r s)) /\
    (forall pre k rc post,
        tr = pre ++ Attempt k rc :: post ->
        rc <> 0 ->
        exists post',
          post = (if (Z.of_nat k <? Z.of_nat MAX_READ_ATTEMPTS - 1)
                     && negb (stop_after ci k)
                  then [Usleep 200000] else []) ++ post' /\
          if (k <? 4)%nat && negb (stop_before ci (S k))
          then exists rc' post'', post' = Attempt (S k) rc' :: post''
          else post' = []).
Proof.
  intros Hd.
  destruct (retry_loop_defined ci Hd MAX_READ_ATTEMPTS 0%nat s)
    as (s' & tr & H).
  exists s', tr. split; [exact H|].
  split; [apply (retry_loop_count _ _ _ _ _ _ H)|].
  split; [intros pre k post;
          apply (retry_loop_success_last _ _ _ _ _ _ _ _ _ H)|].
  split; [intros pre usec post;
          apply (retry_loop_sleep_place _ _ _ _ _ _ _ _ _ H)|].
  split.
  { intros pre k rc k' rc' post.
    apply (retry_loop_between ci MAX_READ_ATTEMPTS 0%nat s s' tr pre k rc k' rc'
                              post eq_refl H). }
  split.
  { intros k rc c Hin Hc.
    apply (proj2 (retry_loop_cancel _ _ _ _ _ _ _ _ H Hin) c);
      [lia | exact Hc]. }
  split; [exact (retry_loop_head ci 4 0 s s' tr H)|].
  split; [intros pre k rc post;
          apply (retry_loop_values _ _ _ _ _ _ _ _ _ _ H)|].
  intros pre k rc post.
  apply (retry_loop_next ci MAX_READ_ATTEMPTS 0%nat s s' tr pre k rc post
                         eq_refl H).
Qed.

Lemma mixed_cycle_defined :
  forall a, dht22_read_single_attempt (line mixed_cycle a) <> None.
Proof.
  intros a. cbn [line mixed_cycle].
  destruct (a <? 2)%nat; vm_compute; discriminate.
Qed.

Lemma cancelled_cycle_defined :
  forall a, dht22_read_single_attempt (line cancelled_cycle a) <> None.
Proof. intros a. vm_compute. discriminate. Qed.

Lemma stuck_line_fails :
  dht22_read_single_attempt stuck_line = Some failure.
Proof. vm_compute. reflexivity. Qed.

Lemma good_line_reads :
  dht22_read_single_attempt (sensor_line [2; 140; 1; 93; 236]) =
  Some (mkAttempt 0 (frame_temperature 1 93) (frame_humidity 2 140)).
Proof. vm_compute. reflexivity. Qed.

(** The policy fixes the whole trace.  Cancelled before its second
    attempt, the loop makes one attempt and sleeps once; with two failures,
    the stop flag seen once by a sleep guard, and a success, it makes three
    attempts, sleeps after the first only, and publishes the third. *)
Lemma retry_policy_witness :
  (exists s',
      retry_loop cancelled_cycle MAX_READ_ATTEMPTS 0 initial_state =
      Some (s', [Attempt 0 1; Usleep 200000])) /\
  retry_loop mixed_cycle MAX_READ_ATTEMPTS 0 initial_state =
  Some (mkState (frame_temperature 1 93) (frame_humidity 2 140) 1 (-1) 0 0,
        [Attempt 0 1; Usleep 200000; Attempt 1 1; Attempt 2 0;
         Publish (frame_temperature 1 93) (frame_humidity 2 140);
         Printf (frame_temperature 1 93) (frame_humidity 2 140)]).
Proof.
  split.
  - destruct (retry_policy cancelled_cycle initial_state
                cancelled_cycle_defined)
      as (s' & tr & H & _ & _ & _ & _ & _ & Hhead & Hval & Hnext).
    exists s'. rewrite H. do 2 f_equal.
    cbn [cancelled_cycle stop_before Nat.eqb] in Hhead.
    destruct Hhead as (rc & post & ->).
    destruct (Hval [] 0%nat rc post eq_refl) as (r & Hr & <- & _).
    cbn [line cancelled_cycle] in Hr. rewrite stuck_line_fails in Hr.
    injection Hr as <-. cbn [ret failure] in *.
    destruct (Hnext [] 0%nat 1 post eq_refl ltac:(discriminate))
      as (post' & -> & Hp).
    cbn in Hp. subst post'. reflexivity.
  - destruct (retry_policy mixed_cycle initial_state mixed_cycle_defined)
      as (s' & tr & H & _ & _ & _ & _ & _ & Hhead & Hval & Hnext).
    rewrite H.
    cbn [mixed_cycle stop_before never] in Hhead.
    destruct Hhead as (rc0 & p0 & ->).
    destruct (Hval [] 0%nat rc0 p0 eq_refl) as (r0 & Hr0 & <- & _).
    cbn [line mixed_cycle Nat.ltb Nat.leb] in Hr0.
    rewrite stuck_line_fails in Hr0. injection Hr0 as <-.
    cbn [ret failure] in *.
    destruct (Hnext [] 0%nat 1 p0 eq_refl ltac:(discriminate))
      as (p1 & -> & Hp1).
    cbn in Hp1. destruct Hp1 as (rc1 & p2 & ->). cbn [app] in *.
    destruct (Hval [Attempt 0 1; Usleep 200000] 1%nat rc1 p2 eq_refl)
      as (r1 & Hr1 & <- & _).
    cbn [line mixed_cycle Nat.ltb Nat.leb] in Hr1.
    rewrite stuck_line_fails in Hr1. injection Hr1 as <-.
    cbn [ret failure] in *.
    destruct (Hnext [Attempt 0 1; Usleep 200000] 1%nat 1 p2 eq_refl
                ltac:(discriminate)) as (p3 & -> & Hp3).
    cbn in Hp3. destruct Hp3 as (rc2 & p4 & ->). cbn [app] in *.
    destruct (Hval [Attempt 0 1; Usleep 200000; Attempt 1 1] 2%nat rc2 p4
                eq_refl) as (r2 & Hr2 & <- & Hpub).
    cbn [line mixed_cycle Nat.ltb Nat.leb] in Hr2.
    rewrite good_line_reads in Hr2. injection Hr2 as <-.
    cbn [ret] in *. destruct (Hpub eq_refl) as [-> ->]. reflexivity.
Defined.

(** C7: a poll cycle in which no attempt returns 0 leaves the cached
    temperature, the cached humidity and the availability flag as they were,
    and a reader gets afterwards what it would have got before. *)
Theorem failed_cycle_keeps_cache (ci : cycle_input) (s : module_state) :
  (forall a, dht22_read_single_attempt (line ci a) <> None) ->
  exists s' tr,
    poll_cycle ci s = Some (s', tr) /\
    ((forall k, ~ In (Attempt k 0) tr) ->
     g_temperature_c s' = g_temperature_c s /\
     g_humidity s' = g_humidity s /\
     g_data_available s' = g_data_available s /\
     forall out,
       dht22_get_last_valid_reading s' out =
       dht22_get_last_valid_reading s out).
Proof.
  intros Hd. destruct (poll_cycle_defined ci s Hd) as (s' & tr & H).
  exists s', tr. split; [exact H|]. intros Hno.
  destruct (poll_cycle_state _ _ _ _ H) as [[-> _]|(r & k & _ & Hin)].
  - auto.
  - destruct (Hno k Hin).
Qed.

Lemma failed_cycle_keeps_cache_witness :
  exists s' tr,
    poll_cycle silent_cycle published_state = Some (s', tr) /\
    (forall k, ~ In (Attempt k 0) tr) /\
    g_data_available s' = 1 /\
    dht22_get_last_valid_reading s' (CFloat.zero, CFloat.zero) =
    (0, (frame_temperature 1 93, frame_humidity 2 140)).
Proof.
  destruct (failed_cycle_keeps_cache silent_cycle published_state
              silent_cycle_defined) as (s' & tr & Hc & Hk).
  exists s', tr. split; [exact Hc|].
  assert (Hno : forall k, ~ In (Attempt k 0) tr).
  { vm_compute in Hc. injection Hc as <- <-. intros k Hin. cbn in Hin.
    repeat (destruct Hin as [Hin|Hin]; [discriminate|]). exact Hin. }
  split; [exact Hno|].
  destruct (Hk Hno) as (_ & _ & Ha & Hg).
  split; [rewrite Ha; reflexivity | rewrite Hg; reflexivity].
Defined.

(** ** The claims on the lifecycle *)

(** C5, as the code has it: a start while a pin is active returns 0, the
    value of a successful start, creates no thread and changes nothing. *)
Theorem start_while_running (create_ok : bool) (gpioPin : Z)
        (s : module_state) :
  g_gpioPin s <> -1 ->
  dht22_start_polling create_ok gpioPin s = (0, s).
Proof.
  intros H. unfold dht22_start_polling.
  apply Z.eqb_neq in H. now rewrite H.
Qed.

Lemma start_while_running_witness :
  dht22_start_polling true 17 published_state = (0, published_state).
Proof.
  apply (start_while_running true 17 published_state).
  vm_compute. discriminate.
Defined.

(** C5, as stated, fails: the second start returns what the first,
    successful one returned; no error tells the two apart. *)
Lemma second_start_returns_success :
  dht22_start_polling true 4 initial_state
  = (0, mkState CFloat.zero CFloat.zero 0 4 0 1) /\
  dht22_start_polling true 17 (mkState CFloat.zero CFloat.zero 0 4 0 1)
  = (0, mkState CFloat.zero CFloat.zero 0 4 0 1).
Proof. split; reflexivity. Qed.

Lemma step_consistent (c : call) (s s' : module_state) :
  real_pin c = true -> consistent s -> step c s = Some s' -> consistent s'.
Proof.
  unfold consistent. intros Hc [H1 H2] Hs.
  destruct c as [ok pin | ci | out | jr]; cbn [step real_pin] in *.
  - injection Hs as <-. unfold dht22_start_polling.
    apply negb_true_iff, Z.eqb_neq in Hc.
    destruct (Z.eqb_spec (g_gpioPin s) (-1)) as [E|E]; cbn [negb snd].
    + destruct (H1 E) as [Ha Ht].
      destruct ok; cbn; rewrite ?Ht; split; intros; try tauto; congruence.
    + split; [intros; contradiction | auto].
  - destruct (Nat.ltb_spec 0 (polling_threads s)) as [Ht|Ht].
    + destruct (poll_cycle ci s) as [[s1 tr]|] eqn:E; [|discriminate].
      cbn [option_map fst] in Hs. injection Hs as <-.
      assert (Hp : g_gpioPin s <> -1) by (intros Hp; apply H1 in Hp; lia).
      destruct (poll_cycle_state _ _ _ _ E) as [[-> _]|(r & k & -> & _)];
        cbn; split; intros; try tauto; auto.
    + injection Hs as <-. auto.
  - injection Hs as <-. auto.
  - injection Hs as <-. unfold dht22_terminate.
    destruct (Z.eqb_spec (g_gpioPin s) (-1)) as [E|E]; cbn [negb fst]; auto.
    cbn. rewrite (H2 E). split; intros; [auto | congruence].
Qed.

Lemma run_consistent (cs : list call) :
  forall s s',
    forallb real_pin cs = true -> consistent s -> run cs s = Some s' ->
    consistent s'.
Proof.
  induction cs as [|c cs IH]; intros s s' Hc Hi Hr; cbn [run forallb] in *.
  - now injection Hr as <-.
  - apply andb_prop in Hc as [Hc1 Hc2].
    destruct (step c s) as [s1|] eqn:E; [|discriminate].
    apply (IH s1 s' Hc2 (step_consistent c s s1 Hc1 Hi E) Hr).
Qed.

Lemma initial_consistent : consistent initial_state.
Proof. split; [auto | intros H; now destruct H]. Qed.

(** C8: after any run of the module that starts real pins, terminate,
    clean or forced, leaves the availability flag at 0, the pin at -1, no
    polling thread, and a reader with no data; and a terminate with no pin
    active, as before any start, changes nothing. *)
Theorem terminate_resets (cs : list call) (join_result : Z)
        (s : module_state) :
  forallb real_pin cs = true ->
  run cs initial_state = Some s ->
  g_data_available (fst (dht22_terminate join_result s)) = 0 /\
  g_gpioPin (fst (dht22_terminate join_result s)) = -1 /\
  polling_threads (fst (dht22_terminate join_result s)) = 0%nat /\
  (forall out,
      dht22_get_last_valid_reading (fst (dht22_terminate join_result s)) out
      = (1, out)) /\
  (g_gpioPin s = -1 -> fst (dht22_terminate join_result s) = s) /\
  fst (dht22_terminate join_result initial_state) = initial_state.
Proof.
  intros Hc Hr.
  destruct (run_consistent cs _ _ Hc initial_consistent Hr) as [H1 H2].
  unfold dht22_terminate, dht22_get_last_valid_reading.
  destruct (Z.eqb_spec (g_gpioPin s) (-1)) as [E|E]; cbn.
  - destruct (H1 E) as [Ha Ht]. rewrite Ha. cbn. auto 10.
  - rewrite (H2 E). cbn. repeat split; auto. intros; contradiction.
Qed.

Lemma terminate_resets_witness :
  g_data_available
    (fst (dht22_terminate 110
            (mkState (frame_temperature 1 93) (frame_humidity 2 140)
                     1 4 0 1))) = 0.
Proof.
  apply (terminate_resets [Start true 4; Cycle good_cycle] 110
           (mkState (frame_temperature 1 93) (frame_humidity 2 140) 1 4 0 1));
    vm_compute; reflexivity.
Defined.

(** C10, as the code has it: a start whose thread creation fails returns
    -1 with the pin back at -1, the cached reading, its flag and the threads
    as before, and the stop flag at 0 whatever it was: the state is the one
    before the call exactly when the stop flag was 0 already. *)
Theorem failed_start_restores_pin (gpioPin : Z) (s : module_state) :
  g_gpioPin s = -1 ->
  dht22_start_polling false gpioPin s =
  (-1, mkState (g_temperature_c s) (g_humidity s) (g_data_available s)
               (-1) 0 (polling_threads s)) /\
  (g_terminate_thread s = 0 ->
   dht22_start_polling false gpioPin s = (-1, s)).
Proof.
  intros H. unfold dht22_start_polling. rewrite H. cbn.
  split; [reflexivity|]. intros Ht. destruct s; cbn in *. now subst.
Qed.

Lemma failed_start_restores_pin_witness :
  dht22_start_polling false 4 initial_state = (-1, initial_state).
Proof.
  apply (proj2 (failed_start_restores_pin 4 initial_state eq_refl)).
  reflexivity.
Defined.

(** C10, as stated, fails: after a start and a terminate the stop flag is
    1, and a start that fails then leaves it at 0. *)
Lemma failed_start_clears_stop_flag :
  run [Start true 4; Terminate 0] initial_state
  = Some (mkState CFloat.zero CFloat.zero 0 (-1) 1 0) /\
  dht22_start_polling false 4 (mkState CFloat.zero CFloat.zero 0 (-1) 1 0)
  = (-1, mkState CFloat.zero CFloat.zero 0 (-1) 0 0) /\
  mkState CFloat.zero CFloat.zero 0 (-1) 0 0
  <> mkState CFloat.zero CFloat.zero 0 (-1) 1 0.
Proof. split; [reflexivity | split; [reflexivity | discriminate]]. Qed.

(** * Further properties of the code *)

(** ** The pulse timer and the capture loop (lines 44-56) *)

(** The timer stops at the first read that differs, or at 255; it makes one
    read per count, and one more when it stops below 255. *)
Lemma wait_change_reads (gpioRead : nat -> Z) (last : Z) :
  forall fuel counter k,
    0 <= counter < 255 -> 255 - counter <= Z.of_nat fuel ->
    counter <= fst (wait_change gpioRead fuel last counter k) <= 255 /\
    Z.of_nat (snd (wait_change gpioRead fuel last counter k)) =
    Z.of_nat k + (fst (wait_change gpioRead fuel last counter k) - counter)
    + (if fst (wait_change gpioRead fuel last counter k) =? 255
       then 0 else 1).
Proof.
  induction fuel as [|fuel IH]; intros counter k Hc Hf; [lia|].
  cbn [wait_change].
  destruct (gpioRead k =? last).
  - destruct (Z.eqb_spec (counter + 1) 255) as [E|E]; cbn [fst snd].
    + rewrite E, Z.eqb_refl. lia.
    + destruct (IH (counter + 1) (S k)) as [H1 H2]; [lia | lia |].
      split; [lia|]. rewrite H2. lia.
  - cbn [fst snd].
    destruct (Z.eqb_spec counter 255); lia.
Qed.

Lemma measure_pulse_reads (gpioRead : nat -> Z) (last : Z) (k : nat) :
  0 <= fst (fst (measure_pulse gpioRead last k)) <= 255 /\
  Z.of_nat (snd (measure_pulse gpioRead last k)) =
  Z.of_nat k + (if fst (fst (measure_pulse gpioRead last k)) =? 255
                then 256
                else fst (fst (measure_pulse gpioRead last k)) + 2).
Proof.
  unfold measure_pulse.
  destruct (wait_change_reads gpioRead last 255 0 k) as [H1 H2];
    [lia | cbn; lia |].
  destruct (wait_change gpioRead 255 last 0 k) as [c k1].
  cbn [fst snd] in *. split; [lia|].
  destruct (Z.eqb_spec c 255); lia.
Qed.

Lemma capture_range (gpioRead : nat -> Z) :
  forall n last k,
    Forall (fun c => 0 <= c < 255) (capture gpioRead n last k).
Proof.
  induction n as [|n IH]; intros last k; cbn [capture]; [constructor|].
  pose proof (measure_pulse_reads gpioRead last k) as [H _].
  destruct (measure_pulse gpioRead last k) as [[c l] k'].
  cbn [fst snd] in H.
  destruct (Z.eqb_spec c 255); constructor; [lia | apply IH].
Qed.

Lemma pulse_reads_bound (ps : list Z) :
  Forall (fun c => 0 <= c < 255) ps ->
  0 <= pulse_reads ps <= 256 * Z.of_nat (length ps).
Proof.
  induction 1 as [|c ps Hc _ IH]; cbn [pulse_reads fold_right length].
  - lia.
  - fold (pulse_reads ps). lia.
Qed.

Lemma read_loop_reads (gpioRead : nat -> Z) :
  forall n i st st',
    read_loop gpioRead n i st = Some st' ->
    Z.of_nat (reads st') =
    Z.of_nat (reads st)
    + pulse_reads (capture gpioRead n (lastState st) (reads st))
    + (if (length (capture gpioRead n (lastState st) (reads st)) <? n)%nat
       then 256 else 0).
Proof.
  induction n as [|n IH]; intros i st st' H; cbn [read_loop capture] in *.
  - injection H as <-. cbn. lia.
  - pose proof (measure_pulse_reads gpioRead (lastState st) (reads st))
      as [_ Hk].
    destruct (measure_pulse gpioRead (lastState st) (reads st))
      as [[c l] k].
    cbn [fst snd] in Hk.
    destruct (Z.eqb_spec c 255) as [E|E].
    + injection H as <-. cbn. lia.
    + destruct (process_pulse i c (data st) (j st)) as [dj|];
        [|discriminate].
      apply IH in H. cbn [reads lastState] in H.
      cbn [pulse_reads fold_right length].
      fold (pulse_reads (capture gpioRead n l k)).
      change (S (length (capture gpioRead n l k)) <? S n)%nat
        with (length (capture gpioRead n l k) <? n)%nat.
      lia.
Qed.

Lemma read_loop_defined_short (gpioRead : nat -> Z) (st : loop_state) :
  read_loop gpioRead MAX_TIMINGS 0 loop_init = Some st ->
  (length (pulses gpioRead) < 85)%nat.
Proof.
  intros H. pose proof (pulses_length gpioRead) as Hl.
  destruct (Nat.eq_dec (length (pulses gpioRead)) 85) as [E|E]; [|lia].
  exfalso. destruct (data_bits_bound gpioRead) as [_ Hu].
  pose proof (read_loop_capture gpioRead MAX_TIMINGS 0 loop_init) as Hc.
  cbn [loop_init lastState reads data j] in Hc. fold (pulses gpioRead) in Hc.
  rewrite process_pulses_undefined, H in Hc by (apply Hu; exact E).
  discriminate.
Qed.

(** X1: the counters of a capture lie between 0 and 254, and there are at
    most 85 of them. *)
Theorem pulses_bounded (gpioRead : nat -> Z) :
  Forall (fun c => 0 <= c < 255) (pulses gpioRead) /\
  (length (pulses gpioRead) <= 85)%nat.
Proof. split; [apply capture_range | apply capture_length]. Qed.

(** X2: when the capture loop ends, it has read the line once per
    microsecond counted plus two reads per pulse, and 256 more when a pulse
    reached the cap: never more than 21760 reads in all. *)
Theorem attempt_reads_bounded (gpioRead : nat -> Z) (st : loop_state) :
  read_loop gpioRead MAX_TIMINGS 0 loop_init = Some st ->
  Z.of_nat (reads st) =
  pulse_reads (pulses gpioRead)
  + (if (length (pulses gpioRead) <? 85)%nat then 256 else 0) /\
  256 <= Z.of_nat (reads st) <= 21760.
Proof.
  intros H.
  pose proof (read_loop_reads gpioRead _ _ _ _ H) as Hr.
  cbn [loop_init lastState reads] in Hr. fold (pulses gpioRead) in Hr.
  change (Z.of_nat 0) with 0 in Hr. change MAX_TIMINGS with 85%nat in Hr.
  pose proof (pulse_reads_bound _ (capture_range gpioRead 85 PI_HIGH 0))
    as Hb.
  change (capture gpioRead 85 PI_HIGH 0) with (pulses gpioRead) in Hb.
  pose proof (read_loop_defined_short gpioRead st H) as Hl.
  apply Nat.ltb_lt in Hl. rewrite Hl in *. apply Nat.ltb_lt in Hl. lia.
Qed.

Lemma attempt_reads_bounded_witness :
  Z.of_nat (reads (mkLoop 1 256 [0; 0; 0; 0; 0] 0)) =
  pulse_reads (pulses stuck_line)
  + (if (length (pulses stuck_line) <? 85)%nat then 256 else 0) /\
  256 <= Z.of_nat (reads (mkLoop 1 256 [0; 0; 0; 0; 0] 0)) <= 21760.
Proof.
  apply (attempt_reads_bounded stuck_line (mkLoop 1 256 [0; 0; 0; 0; 0] 0)).
  vm_compute. reflexivity.
Defined.

(** ** Lines that hold each level for a given time *)

Lemma wait_change_hold (gpioRead : nat -> Z) (last : Z) :
  forall c fuel counter k,
    (forall i, (i < c)%nat -> gpioRead (k + i)%nat = last) ->
    gpioRead (k + c)%nat <> last ->
    0 <= counter -> counter + Z.of_nat c < 255 -> (c < fuel)%nat ->
    wait_change gpioRead fuel last counter k =
    (counter + Z.of_nat c, S (k + c)).
Proof.
  induction c as [|c IH]; intros fuel counter k Hh Hc H0 Hb Hf;
    (destruct fuel as [|fuel]; [lia|]); cbn [wait_change].
  - rewrite Nat.add_0_r in Hc. apply Z.eqb_neq in Hc. rewrite Hc.
    f_equal; lia.
  - pose proof (Hh 0%nat ltac:(lia)) as E. rewrite Nat.add_0_r in E.
    rewrite E, Z.eqb_refl.
    destruct (Z.eqb_spec (counter + 1) 255); [lia|].
    rewrite (IH fuel (counter + 1) (S k)); try lia.
    + f_equal; lia.
    + intros i Hi. replace (S k + i)%nat with (k + S i)%nat by lia.
      apply Hh. lia.
    + replace (S k + c)%nat with (k + S c)%nat by lia. exact Hc.
Qed.

Lemma wait_change_stuck (gpioRead : nat -> Z) (last : Z) :
  forall fuel counter k,
    (forall i, gpioRead (k + i)%nat = last) ->
    0 <= counter < 255 -> 255 - counter <= Z.of_nat fuel ->
    fst (wait_change gpioRead fuel last counter k) = 255.
Proof.
  induction fuel as [|fuel IH]; intros counter k Hh Hc Hf; [lia|].
  cbn [wait_change].
  pose proof (Hh 0%nat) as E. rewrite Nat.add_0_r in E.
  rewrite E, Z.eqb_refl.
  destruct (Z.eqb_spec (counter + 1) 255) as [E1|E1]; [exact E1|].
  apply IH; try lia.
  intros i. replace (S k + i)%nat with (k + S i)%nat by lia. apply Hh.
Qed.

Lemma line_of_pulses_head (c : nat) (ps : list nat) (level : Z) :
  (forall i, (i < c)%nat -> line_of_pulses (c :: ps) level i = level) /\
  line_of_pulses (c :: ps) level c = 1 - level /\
  line_of_pulses (c :: ps) level (S c) = 1 - level /\
  (forall k, line_of_pulses (c :: ps) level (c + 2 + k)
             = line_of_pulses ps (1 - level) k).
Proof.
  cbn [line_of_pulses]. repeat split.
  - intros i Hi. apply Nat.ltb_lt in Hi. now rewrite Hi.
  - rewrite Nat.ltb_irrefl.
    destruct (Nat.ltb_spec c (c + 2)); [reflexivity | lia].
  - destruct (Nat.ltb_spec (S c) c); [lia|].
    destruct (Nat.ltb_spec (S c) (c + 2)); [reflexivity | lia].
  - intros k.
    destruct (Nat.ltb_spec (c + 2 + k) c); [lia|].
    destruct (Nat.ltb_spec (c + 2 + k) (c + 2)); [lia|].
    f_equal. lia.
Qed.

(** On a line that follows a script from read [k0] on, the capture is the
    script, cut at the number of iterations. *)
Lemma capture_script (gpioRead : nat -> Z) :
  forall ps n level k0,
    (forall k, gpioRead (k0 + k)%nat = line_of_pulses ps level k) ->
    Forall (fun c => (c < 255)%nat) ps ->
    capture gpioRead n level k0 = map Z.of_nat (firstn n ps).
Proof.
  induction ps as [|c ps IH]; intros n level k0 Hg Hs;
    (destruct n as [|n]; [reflexivity|]); cbn [capture firstn map].
  - unfold measure_pulse.
    pose proof (wait_change_stuck gpioRead level 255 0 k0 Hg) as Hw.
    destruct (wait_change gpioRead 255 level 0 k0) as [cnt k1].
    cbn [fst] in Hw. rewrite Hw by (cbn; lia). reflexivity.
  - inversion Hs as [|c' ps' Hc Hps]; subst.
    destruct (line_of_pulses_head c ps level) as (Hh & Hc0 & Hc1 & Hrest).
    unfold measure_pulse.
    rewrite (wait_change_hold gpioRead level c 255 0 k0); try lia.
    + rewrite Z.add_0_l.
      destruct (Z.eqb_spec (Z.of_nat c) 255); [lia|].
      replace (gpioRead (S (k0 + c))) with (1 - level)
        by (rewrite <- Hc1, <- Hg; f_equal; lia).
      f_equal. apply IH; [|exact Hps].
      intros k. rewrite <- Hrest, <- Hg. f_equal. lia.
    + intros i Hi. rewrite Hg. now apply Hh.
    + rewrite Hg, Hc0. lia.
Qed.

(** X3: on a line that holds each level for the scripted number of reads,
    each below 255, the capture is exactly the script (its first 85 items). *)
Theorem capture_of_script (ps : list nat) :
  Forall (fun c => (c < 255)%nat) ps ->
  pulses (line_of_pulses ps PI_HIGH) = map Z.of_nat (firstn 85 ps).
Proof.
  intros H. unfold pulses.
  apply (capture_script (line_of_pulses ps PI_HIGH) ps MAX_TIMINGS PI_HIGH 0);
    [intros k; reflexivity | exact H].
Qed.

Lemma capture_of_script_witness :
  pulses (line_of_pulses [3; 80; 80; 50; 70]%nat PI_HIGH)
  = map Z.of_nat (firstn 85 [3; 80; 80; 50; 70]%nat).
Proof.
  apply (capture_of_script [3; 80; 80; 50; 70]%nat).
  repeat constructor.
Defined.

(** ** The answer of a sensor *)

Lemma msb_bits_of_byte (b : Z) :
  0 <= b < 256 -> msb_value (bits_of_byte b) = b.
Proof.
  intros Hb.
  assert (H : forallb (fun n => msb_value (bits_of_byte (Z.of_nat n))
                                =? Z.of_nat n) (seq 0 256) = true)
    by (vm_compute; reflexivity).
  rewrite forallb_forall in H. specialize (H (Z.to_nat b)).
  rewrite Z2Nat.id in H by lia. apply Z.eqb_eq, H, in_seq. lia.
Qed.

Lemma pulses_of_bytes_short (bs : list Z) :
  Forall (fun c => (c < 255)%nat) (pulses_of_bytes bs).
Proof.
  unfold pulses_of_bytes. apply Forall_forall. intros c Hc.
  apply in_app_or in Hc as [Hc|Hc].
  - cbn in Hc. intuition lia.
  - apply in_app_or in Hc as [Hc|Hc].
    + apply in_flat_map in Hc as (b & _ & Hc).
      destruct b; cbn in Hc; intuition lia.
    + cbn in Hc. intuition lia.
Qed.

Lemma pulses_of_bytes_length (bs : list Z) :
  length (pulses_of_bytes bs) = (4 + 16 * length bs)%nat.
Proof.
  unfold pulses_of_bytes. rewrite !length_app. cbn [length].
  assert (H : forall bits : list bool,
             length (flat_map (fun b : bool => [50; if b then 70 else 24]%nat)
                              bits) = (2 * length bits)%nat).
  { induction bits as [|b bits IH]; cbn [flat_map length app]; [|rewrite IH];
      lia. }
  rewrite H.
  assert (H8 : length (flat_map bits_of_byte bs) = (8 * length bs)%nat).
  { induction bs as [|b bs IH]; cbn [flat_map length]; [reflexivity|].
    rewrite length_app, IH. cbn. lia. }
  rewrite H8. lia.
Qed.

(** The data bits of the pulse train of a run of bits are those bits. *)
Lemma data_bits_of_train (bits : list bool) :
  data_bits (map Z.of_nat
               ([3; 80; 80]%nat
                ++ flat_map (fun b : bool => [50; if b then 70 else 24]%nat)
                            bits
                ++ [50%nat])) = bits.
Proof.
  unfold data_bits.
  assert (H : forall bs : list bool,
             map bit_of_pulse
               (every_other
                  (tl (map Z.of_nat
                         (flat_map
                            (fun b : bool => [50; if b then 70 else 24]%nat)
                            bs ++ [50%nat])))) = bs).
  { induction bs as [|b bs IH]; [reflexivity|].
    cbn [flat_map app map tl].
    destruct bs as [|b' bs].
    - destruct b; reflexivity.
    - cbn [flat_map app map tl every_other] in *.
      rewrite IH. destruct b; reflexivity. }
  destruct bits as [|b bits]; [reflexivity|].
  specialize (H (b :: bits)). cbn [flat_map app map tl skipn] in *.
  exact H.
Qed.

Lemma sensor_line_frame (b0 b1 b2 b3 b4 : Z) :
  0 <= b0 < 256 -> 0 <= b1 < 256 -> 0 <= b2 < 256 -> 0 <= b3 < 256 ->
  0 <= b4 < 256 ->
  length (data_bits (pulses (sensor_line [b0; b1; b2; b3; b4]))) = 40%nat /\
  frame_bytes (data_bits (pulses (sensor_line [b0; b1; b2; b3; b4])))
  = [b0; b1; b2; b3; b4].
Proof.
  intros H0 H1 H2 H3 H4.
  assert (Hp : pulses (sensor_line [b0; b1; b2; b3; b4])
               = map Z.of_nat (pulses_of_bytes [b0; b1; b2; b3; b4])).
  { unfold sensor_line, pulses.
    rewrite (capture_script _ (pulses_of_bytes [b0; b1; b2; b3; b4])
                            MAX_TIMINGS PI_HIGH 0);
      [| intros k; reflexivity | apply pulses_of_bytes_short].
    rewrite firstn_all2; [reflexivity|].
    rewrite pulses_of_bytes_length. cbn [length]. unfold MAX_TIMINGS. lia. }
  assert (Hd : data_bits (pulses (sensor_line [b0; b1; b2; b3; b4]))
               = flat_map bits_of_byte [b0; b1; b2; b3; b4]).
  { rewrite Hp. unfold pulses_of_bytes. apply data_bits_of_train. }
  assert (Hf : frame_bytes (flat_map bits_of_byte [b0; b1; b2; b3; b4])
               = [b0; b1; b2; b3; b4]).
  { rewrite <- (msb_bits_of_byte b0 H0) at 2.
    rewrite <- (msb_bits_of_byte b1 H1) at 2.
    rewrite <- (msb_bits_of_byte b2 H2) at 2.
    rewrite <- (msb_bits_of_byte b3 H3) at 2.
    rewrite <- (msb_bits_of_byte b4 H4) at 2.
    reflexivity. }
  rewrite Hd, Hf. split; reflexivity.
Qed.

Lemma sensor_line_read (b0 b1 b2 b3 : Z) :
  0 <= b0 < 256 -> 0 <= b1 < 256 -> 0 <= b2 < 256 -> 0 <= b3 < 256 ->
  dht22_read_single_attempt
    (sensor_line [b0; b1; b2; b3; Z.land (b0 + b1 + b2 + b3) 255]) =
  Some (mkAttempt 0 (frame_temperature b2 b3) (frame_humidity b0 b1)).
Proof.
  intros H0 H1 H2 H3.
  assert (H4 : 0 <= Z.land (b0 + b1 + b2 + b3) 255 < 256).
  { change 255 with (Z.ones 8). rewrite Z.land_ones by lia.
    apply Z.mod_pos_bound. lia. }
  destruct (sensor_line_frame b0 b1 b2 b3 _ H0 H1 H2 H3 H4) as [Hl Hf].
  rewrite attempt_frame by lia. rewrite Hl, Hf.
  apply verify_valid; auto. lia.
Qed.

(** X4: the capture of a sensor answer carrying five bytes gives back those
    40 bits and five bytes; and when the fifth byte is the checksum of the
    other four, the read returns 0 with the humidity and temperature they
    encode. *)
Theorem sensor_answer_decoded (b0 b1 b2 b3 b4 : Z) :
  0 <= b0 < 256 -> 0 <= b1 < 256 -> 0 <= b2 < 256 -> 0 <= b3 < 256 ->
  0 <= b4 < 256 ->
  length (data_bits (pulses (sensor_line [b0; b1; b2; b3; b4]))) = 40%nat /\
  frame_bytes (data_bits (pulses (sensor_line [b0; b1; b2; b3; b4])))
  = [b0; b1; b2; b3; b4] /\
  (b4 = Z.land (b0 + b1 + b2 + b3) 255 ->
   dht22_read_single_attempt (sensor_line [b0; b1; b2; b3; b4]) =
   Some (mkAttempt 0 (frame_temperature b2 b3) (frame_humidity b0 b1))).
Proof.
  intros H0 H1 H2 H3 H4.
  destruct (sensor_line_frame b0 b1 b2 b3 b4 H0 H1 H2 H3 H4) as [Hl Hf].
  split; [exact Hl|]. split; [exact Hf|].
  intros ->. now apply sensor_line_read.
Qed.

Lemma sensor_answer_decoded_witness :
  dht22_read_single_attempt (sensor_line [1; 44; 128; 101; 18]) =
  Some (mkAttempt 0 (frame_temperature 128 101) (frame_humidity 1 44)).
Proof.
  apply (sensor_answer_decoded 1 44 128 101 18); try lia. reflexivity.
Defined.

(** X5: when fewer than 85 pulses are captured, the loop ends with [data]
    holding the bytes of the data bits, most significant bit first, each
    byte below 256, and with [j] their number, at most 40. *)
Theorem capture_decodes (gpioRead : nat -> Z) :
  (length (pulses gpioRead) < 85)%nat ->
  exists st,
    read_loop gpioRead MAX_TIMINGS 0 loop_init = Some st /\
    data st = frame_bytes (data_bits (pulses gpioRead)) /\
    j st = Z.of_nat (length (data_bits (pulses gpioRead))) /\
    0 <= j st <= 40 /\
    Forall (fun x => 0 <= x < 256) (data st).
Proof.
  intros Hl. destruct (data_bits_bound gpioRead) as [Hb Hu].
  assert (H40 : (length (data_bits (pulses gpioRead)) <= 40)%nat).
  { destruct (Nat.le_gt_cases (length (data_bits (pulses gpioRead))) 40)
      as [H|H]; [exact H | apply Hu in H; lia]. }
  destruct (capture_loop_frame gpioRead H40) as (st & Hs & Hd & Hj).
  exists st. repeat split; auto; try lia.
  rewrite Hd, frame_bytes_eq. repeat constructor; apply byte_at_range.
Qed.

Lemma capture_decodes_witness :
  exists st,
    read_loop (sensor_line [2; 140; 1; 93; 236]) MAX_TIMINGS 0 loop_init
    = Some st /\
    data st = [2; 140; 1; 93; 236] /\ j st = 40.
Proof.
  destruct (capture_decodes (sensor_line [2; 140; 1; 93; 236]))
    as (st & Hs & Hd & Hj & _).
  - replace (length (pulses (sensor_line [2; 140; 1; 93; 236])))
      with 84%nat by (vm_compute; reflexivity).
    lia.
  - exists st. split; [exact Hs|]. split.
    + rewrite Hd. vm_compute. reflexivity.
    + rewrite Hj. vm_compute. reflexivity.
Defined.

(** X14: the result of a read depends on the line only through the data
    bits of its capture: the lengths of the handshake pulses and of the low
    pulses, and by how much a high pulse passes or misses 25, play no part. *)
Theorem read_depends_on_data_bits (gpioRead1 gpioRead2 : nat -> Z) :
  data_bits (pulses gpioRead1) = data_bits (pulses gpioRead2) ->
  dht22_read_single_attempt gpioRead1 = dht22_read_single_attempt gpioRead2.
Proof.
  intros H.
  destruct (Nat.le_gt_cases (length (data_bits (pulses gpioRead1))) 40)
    as [Hl|Hl].
  - rewrite (attempt_frame gpioRead1 Hl).
    rewrite attempt_frame by (rewrite <- H; exact Hl). now rewrite H.
  - rewrite (attempt_undefined gpioRead1 Hl).
    rewrite attempt_undefined by (rewrite <- H; exact Hl). reflexivity.
Qed.

Lemma read_depends_on_data_bits_witness :
  dht22_read_single_attempt (sensor_line [2; 140; 1; 93; 236]) =
  dht22_read_single_attempt (slow_sensor_line [2; 140; 1; 93; 236]).
Proof.
  apply (read_depends_on_data_bits (sensor_line [2; 140; 1; 93; 236])
           (slow_sensor_line [2; 140; 1; 93; 236])).
  vm_compute. reflexivity.
Defined.

Lemma sign_bit_set (b : Z) :
  0 <= b < 128 ->
  Z.testbit (b + 128) 7 = true /\ Z.testbit b 7 = false /\
  Z.land (b + 128) 127 = Z.land b 127.
Proof.
  intros Hb.
  assert (H : forallb (fun n => Z.testbit (Z.of_nat n + 128) 7
                                && negb (Z.testbit (Z.of_nat n) 7)
                                && (Z.land (Z.of_nat n + 128) 127
                                    =? Z.land (Z.of_nat n) 127))
                      (seq 0 128) = true)
    by (vm_compute; reflexivity).
  rewrite forallb_forall in H. specialize (H (Z.to_nat b)).
  rewrite Z2Nat.id in H by lia.
  assert (Hin : In (Z.to_nat b) (seq 0 128)) by (apply in_seq; lia).
  apply H in Hin. apply andb_prop in Hin as [Hin H3].
  apply andb_prop in Hin as [H1 H2].
  apply negb_true_iff in H2. apply Z.eqb_eq in H3. auto.
Qed.

(** X15: the temperature is sign and magnitude: a sensor answer with bit 7
    of the third byte set reads as the negated temperature of the answer
    without it, and as the same humidity. *)
Theorem sign_bit_negates (b0 b1 b2 b3 : Z) :
  0 <= b0 < 256 -> 0 <= b1 < 256 -> 0 <= b2 < 128 -> 0 <= b3 < 256 ->
  exists t h,
    dht22_read_single_attempt
      (sensor_line [b0; b1; b2; b3; Z.land (b0 + b1 + b2 + b3) 255])
    = Some (mkAttempt 0 t h) /\
    dht22_read_single_attempt
      (sensor_line [b0; b1; b2 + 128; b3;
                    Z.land (b0 + b1 + (b2 + 128) + b3) 255])
    = Some (mkAttempt 0 (CFloat.neg t) h).
Proof.
  intros H0 H1 H2 H3.
  exists (frame_temperature b2 b3), (frame_humidity b0 b1).
  rewrite !sensor_line_read by lia. split; [reflexivity|].
  destruct (sign_bit_set b2 H2) as (Hs & Hc & Hm).
  unfold frame_temperature. now rewrite Hs, Hc, Hm.
Qed.

Lemma sign_bit_negates_witness :
  exists t h,
    dht22_read_single_attempt
      (sensor_line [1; 44; 0; 101; Z.land (1 + 44 + 0 + 101) 255])
    = Some (mkAttempt 0 t h) /\
    dht22_read_single_attempt
      (sensor_line [1; 44; 0 + 128; 101;
                    Z.land (1 + 44 + (0 + 128) + 101) 255])
    = Some (mkAttempt 0 (CFloat.neg t) h).
Proof. apply (sign_bit_negates 1 44 0 101); lia. Defined.

(** ** What a poll cycle publishes *)

(** A read that returns 0 has captured a 40-bit frame with a right checksum
    and hands out its two values. *)
Lemma attempt_success (gpioRead : nat -> Z) (r : attempt_result) :
  dht22_read_single_attempt gpioRead = Some r -> ret r = 0 ->
  exists b0 b1 b2 b3 b4,
    length (data_bits (pulses gpioRead)) = 40%nat /\
    frame_bytes (data_bits (pulses gpioRead)) = [b0; b1; b2; b3; b4] /\
    b4 = Z.land (b0 + b1 + b2 + b3) 255 /\
    r = mkAttempt 0 (frame_temperature b2 b3) (frame_humidity b0 b1).
Proof.
  intros H Hr. destruct (data_bits_bound gpioRead) as [Hb Hu].
  set (bits := data_bits (pulses gpioRead)) in *.
  destruct (Nat.le_gt_cases (length bits) 40) as [Hle|Hgt];
    [|rewrite (attempt_undefined gpioRead Hgt) in H; discriminate].
  destruct (Nat.eq_dec (length bits) 40) as [E|E].
  - exists (byte_at bits 0), (byte_at bits 1), (byte_at bits 2),
      (byte_at bits 3), (byte_at bits 4).
    destruct (Z.eq_dec (byte_at bits 4)
                (Z.land (byte_at bits 0 + byte_at bits 1 + byte_at bits 2
                         + byte_at bits 3) 255)) as [Hc|Hc].
    + repeat split; auto.
      rewrite attempt_frame in H by exact Hle. fold bits in H.
      rewrite frame_bytes_eq, verify_valid in H;
        auto using byte_at_range; [congruence | lia].
    + rewrite (attempt_mismatch gpioRead _ _ _ _ _ Hle (frame_bytes_eq bits)
                                Hc) in H.
      injection H as <-. discriminate.
  - rewrite attempt_short in H by (fold bits; lia).
    injection H as <-. discriminate.
Qed.

Lemma last_publish_skip (e : event) (tr : list event) :
  is_publish e = false -> last_publish (e :: tr) = last_publish tr.
Proof.
  intros H. cbn [last_publish].
  destruct (last_publish tr); [reflexivity|].
  destruct e; try reflexivity; discriminate.
Qed.

Lemma last_publish_app (tr1 tr2 : list event) :
  last_publish (tr1 ++ tr2) =
  match last_publish tr2 with
  | Some th => Some th
  | None => last_publish tr1
  end.
Proof.
  induction tr1 as [|e tr1 IH]; cbn [app last_publish].
  - destruct (last_publish tr2); reflexivity.
  - rewrite IH. destruct (last_publish tr2); reflexivity.
Qed.

(** What the retry loop publishes: one reading at most, the values of an
    attempt that returned 0, and the cache holds it afterwards. *)
Lemma retry_loop_publish (ci : cycle_input) :
  forall n a s s' tr,
    retry_loop ci n a s = Some (s', tr) ->
    (count_publishes tr <= 1)%nat /\
    (count_retry_sleeps tr <= 4 - a)%nat /\
    count_sleeps tr = 0%nat /\
    s' = match last_publish tr with
         | Some th => with_reading th s
         | None => s
         end /\
    forall t h,
      In (Publish t h) tr ->
      last_publish tr = Some (t, h) /\
      exists k r,
        (a <= k < a + n)%nat /\
        dht22_read_single_attempt (line ci k) = Some r /\
        ret r = 0 /\ t = temperature r /\ h = humidity r.
Proof.
  induction n as [|n IH]; intros a s s' tr H.
  - inversion H; subst. cbn.
    split; [lia|]. split; [lia|]. split; [reflexivity|].
    split; [reflexivity|]. intros t h [].
  - apply retry_loop_cases in H
      as [(_ & -> & ->)
         | (_ & r & Hr & [(E & -> & ->) | (E & rest & Hl & ->)])].
    + cbn. split; [lia|]. split; [lia|]. split; [reflexivity|].
      split; [reflexivity|]. intros t h [].
    + cbn. split; [lia|]. split; [lia|]. split; [reflexivity|].
      split; [reflexivity|].
      intros t h [Hin|[Hin|[Hin|[]]]]; try discriminate.
      injection Hin as <- <-. split; [reflexivity|].
      exists a, r. split; [lia|]. auto.
    + destruct (IH _ _ _ _ Hl) as (Hp & Hs & Hw & Hst & Hin).
      unfold count_publishes, count_retry_sleeps, count_sleeps in *.
      destruct (retry_guard ci a) eqn:G.
      * apply retry_guard_bound in G as [G _].
        rewrite !last_publish_skip by reflexivity.
        cbn [filter is_publish is_retry_sleep is_sleep length].
        split; [exact Hp|]. split; [lia|]. split; [exact Hw|].
        split; [exact Hst|].
        intros t h [H|[H|H]]; try discriminate.
        destruct (Hin _ _ H) as (Hlast & k & r' & Hk & Hrest).
        split; [exact Hlast|]. exists k, r'. split; [lia | exact Hrest].
      * rewrite !last_publish_skip by reflexivity.
        cbn [filter is_publish is_retry_sleep is_sleep length].
        split; [exact Hp|]. split; [lia|]. split; [exact Hw|].
        split; [exact Hst|].
        intros t h [H|H]; try discriminate.
        destruct (Hin _ _ H) as (Hlast & k & r' & Hk & Hrest).
        split; [exact Hlast|]. exists k, r'. split; [lia | exact Hrest].
Qed.

Lemma interval_wait_counts (ci : cycle_input) (n i : nat) :
  count_attempts (interval_wait ci n i) = 0%nat /\
  count_retry_sleeps (interval_wait ci n i) = 0%nat /\
  count_publishes (interval_wait ci n i) = 0%nat /\
  (count_sleeps (interval_wait ci n i) <= n)%nat /\
  last_publish (interval_wait ci n i) = None /\
  forall t h, ~ In (Publish t h) (interval_wait ci n i).
Proof.
  unfold count_attempts, count_retry_sleeps, count_publishes, count_sleeps.
  revert i. induction n as [|n IH]; intros i; cbn [interval_wait].
  - cbn. do 5 (split; [auto|]). intros t h [].
  - destruct (stop_wait ci i).
    + cbn. do 3 (split; [auto|]). split; [lia|]. split; [auto|].
      intros t h [].
    + destruct (IH (S i)) as (H1 & H2 & H3 & H4 & H5 & H6).
      cbn [filter is_attempt is_retry_sleep is_publish is_sleep length
           last_publish].
      rewrite H5. do 3 (split; [auto|]). split; [lia|]. split; [auto|].
      intros t h [Hin|Hin]; [discriminate | now apply (H6 t h)].
Qed.

Lemma count_app (f : event -> bool) (tr1 tr2 : list event) :
  length (filter f (tr1 ++ tr2)) =
  (length (filter f tr1) + length (filter f tr2))%nat.
Proof. now rewrite filter_app, length_app. Qed.

(** A poll cycle, split into its retry loop and its interval wait. *)
Lemma poll_cycle_parts (ci : cycle_input) (s s' : module_state)
      (tr : list event) :
  poll_cycle ci s = Some (s', tr) ->
  exists tr1,
    retry_loop ci MAX_READ_ATTEMPTS 0 s = Some (s', tr1) /\
    tr = tr1 ++ interval_wait ci SENSOR_POLL_INTERVAL_SEC 0.
Proof.
  unfold poll_cycle. intros H.
  destruct (retry_loop ci MAX_READ_ATTEMPTS 0 s) as [[s1 tr1]|];
    [|discriminate].
  cbn [fst snd] in H. injection H as <- <-. eauto.
Qed.

Lemma poll_cycle_last (ci : cycle_input) (s s' : module_state)
      (tr : list event) :
  poll_cycle ci s = Some (s', tr) ->
  s' = match last_publish tr with
       | Some th => with_reading th s
       | None => s
       end.
Proof.
  intros H. apply poll_cycle_parts in H as (tr1 & H & ->).
  destruct (retry_loop_publish ci _ _ _ _ _ H) as (_ & _ & _ & Hs & _).
  destruct (interval_wait_counts ci SENSOR_POLL_INTERVAL_SEC 0)
    as (_ & _ & _ & _ & Hw & _).
  now rewrite last_publish_app, Hw.
Qed.

(** ** Further properties of the polling thread (lines 93-141) *)

Lemma attempt_defined (gpioRead : nat -> Z) :
  (length (pulses gpioRead) < 85)%nat ->
  dht22_read_single_attempt gpioRead <> None.
Proof.
  intros Hl. destruct (data_bits_bound gpioRead) as [_ Hu].
  rewrite attempt_frame, frame_bytes_eq, verify_eq.
  - destruct (_ && _); discriminate.
  - destruct (Nat.le_gt_cases (length (data_bits (pulses gpioRead))) 40)
      as [H|H]; [exact H | apply Hu in H; lia].
Qed.

Lemma retry_loop_defined_upto (ci : cycle_input) :
  forall n a s,
    (forall k, (a <= k < a + n)%nat ->
               dht22_read_single_attempt (line ci k) <> None) ->
    exists s' tr, retry_loop ci n a s = Some (s', tr).
Proof.
  induction n as [|n IH]; intros a s Hd; cbn [retry_loop].
  - eauto.
  - destruct (stop_before ci a); [eauto|].
    pose proof (Hd a ltac:(lia)) as Ha.
    destruct (dht22_read_single_attempt (line ci a)) as [r|]; [|congruence].
    destruct (ret r =? 0); [eauto|].
    destruct (IH (S a) s) as (s1 & rest & ->).
    + intros k Hk. apply Hd. lia.
    + cbn [fst snd]. eauto.
Qed.

(** X6: when none of the five attempts of a poll cycle captures 85 pulses
    (the capture on which the read is undefined), the cycle has a defined
    result, and a reading it publishes is the temperature and humidity of a
    40-bit frame with a right checksum, captured by one of these attempts;
    a reader then gets exactly this reading. *)
Theorem published_reading_valid (ci : cycle_input) (s : module_state) :
  (forall a, (a < 5)%nat -> (length (pulses (line ci a)) < 85)%nat) ->
  exists s' tr,
    poll_cycle ci s = Some (s', tr) /\
    forall t h,
      In (Publish t h) tr ->
      (exists k b0 b1 b2 b3 b4,
          (k < 5)%nat /\
          length (data_bits (pulses (line ci k))) = 40%nat /\
          frame_bytes (data_bits (pulses (line ci k)))
          = [b0; b1; b2; b3; b4] /\
          b4 = Z.land (b0 + b1 + b2 + b3) 255 /\
          t = frame_temperature b2 b3 /\ h = frame_humidity b0 b1) /\
      forall out, dht22_get_last_valid_reading s' out = (0, (t, h)).
Proof.
  intros Hd.
  destruct (retry_loop_defined_upto ci MAX_READ_ATTEMPTS 0%nat s)
    as (s' & tr1 & H).
  { intros k Hk. apply attempt_defined, Hd. unfold MAX_READ_ATTEMPTS in Hk.
    lia. }
  assert (Hc : poll_cycle ci s =
               Some (s', tr1 ++ interval_wait ci SENSOR_POLL_INTERVAL_SEC 0))
    by (unfold poll_cycle; rewrite H; reflexivity).
  exists s', (tr1 ++ interval_wait ci SENSOR_POLL_INTERVAL_SEC 0).
  split; [exact Hc|]. intros t h Hin.
  pose proof (poll_cycle_last _ _ _ _ Hc) as Hs.
  destruct (retry_loop_publish ci _ _ _ _ _ H) as (_ & _ & _ & _ & Hp).
  destruct (interval_wait_counts ci SENSOR_POLL_INTERVAL_SEC 0)
    as (_ & _ & _ & _ & Hw & Hn).
  apply in_app_or in Hin as [Hin|Hin]; [|destruct (Hn t h Hin)].
  destruct (Hp t h Hin) as (Hl & k & r & Hk & Hr & Hz & -> & ->).
  rewrite last_publish_app, Hw, Hl in Hs. subst s'. split.
  - destruct (attempt_success _ _ Hr Hz)
      as (b0 & b1 & b2 & b3 & b4 & H40 & Hf & Hcs & ->).
    exists k, b0, b1, b2, b3, b4.
    unfold MAX_READ_ATTEMPTS in Hk. cbn [temperature humidity].
    repeat split; auto; lia.
  - intros out. reflexivity.
Qed.

Lemma published_reading_valid_witness :
  exists s' tr,
    poll_cycle mixed_cycle initial_state = Some (s', tr) /\
    In (Publish (frame_temperature 1 93) (frame_humidity 2 140)) tr /\
    (exists k b0 b1 b2 b3 b4,
        (k < 5)%nat /\
        length (data_bits (pulses (line mixed_cycle k))) = 40%nat /\
        frame_bytes (data_bits (pulses (line mixed_cycle k)))
        = [b0; b1; b2; b3; b4] /\
        b4 = Z.land (b0 + b1 + b2 + b3) 255 /\
        frame_temperature 1 93 = frame_temperature b2 b3 /\
        frame_humidity 2 140 = frame_humidity b0 b1) /\
    dht22_get_last_valid_reading s' (CFloat.zero, CFloat.zero)
    = (0, (frame_temperature 1 93, frame_humidity 2 140)).
Proof.
  destruct (published_reading_valid mixed_cycle initial_state)
    as (s' & tr & Hc & Hp).
  - intros a _. cbn [line mixed_cycle].
    destruct (a <? 2)%nat.
    + replace (length (pulses stuck_line)) with 0%nat
        by (vm_compute; reflexivity).
      lia.
    + replace (length (pulses (sensor_line [2; 140; 1; 93; 236])))
        with 84%nat by (vm_compute; reflexivity).
      lia.
  - exists s', tr. split; [exact Hc|].
    assert (Hin : In (Publish (frame_temperature 1 93) (frame_humidity 2 140))
                     tr).
    { vm_compute in Hc. injection Hc as _ <-.
      do 4 right. left. reflexivity. }
    split; [exact Hin|].
    destruct (Hp _ _ Hin) as [Hf Hg]. split; [exact Hf | apply Hg].
Defined.

(** X7: a poll cycle makes at most 5 attempts, 4 retry sleeps, 10
    one-second sleeps and one publication, and it leaves the pin, the stop
    flag and the thread count as they were. *)
Theorem cycle_budget (ci : cycle_input) (s s' : module_state)
        (tr : list event) :
  poll_cycle ci s = Some (s', tr) ->
  (count_attempts tr <= 5)%nat /\
  (count_retry_sleeps tr <= 4)%nat /\
  (count_sleeps tr <= 10)%nat /\
  (count_publishes tr <= 1)%nat /\
  g_gpioPin s' = g_gpioPin s /\
  g_terminate_thread s' = g_terminate_thread s /\
  polling_threads s' = polling_threads s.
Proof.
  intros H. pose proof (poll_cycle_last _ _ _ _ H) as Hs.
  apply poll_cycle_parts in H as (tr1 & H & ->).
  destruct (retry_loop_publish ci _ _ _ _ _ H) as (Hp & Hr & Hz & _ & _).
  pose proof (retry_loop_count ci _ _ _ _ _ H) as Ha.
  destruct (interval_wait_counts ci SENSOR_POLL_INTERVAL_SEC 0)
    as (W1 & W2 & W3 & W4 & _ & _).
  unfold count_attempts, count_retry_sleeps, count_sleeps, count_publishes,
    MAX_READ_ATTEMPTS, SENSOR_POLL_INTERVAL_SEC in *.
  rewrite !count_app.
  split; [lia|]. split; [lia|]. split; [lia|]. split; [lia|].
  subst s'. destruct (last_publish _); auto.
Qed.

Lemma cycle_budget_witness :
  (count_attempts
     ([Attempt 0 1; Usleep 200000; Attempt 1 1; Usleep 200000; Attempt 2 1;
       Usleep 200000; Attempt 3 1; Usleep 200000; Attempt 4 1]
      ++ repeat (Sleep 1) 10) <= 5)%nat.
Proof.
  apply (cycle_budget silent_cycle initial_state initial_state
           ([Attempt 0 1; Usleep 200000; Attempt 1 1; Usleep 200000;
             Attempt 2 1; Usleep 200000; Attempt 3 1; Usleep 200000;
             Attempt 4 1] ++ repeat (Sleep 1) 10)).
  vm_compute. reflexivity.
Defined.

Lemma interval_wait_stops_at (ci : cycle_input) :
  forall n i,
    exists m,
      (m <= n)%nat /\
      interval_wait ci n i = repeat (Sleep 1) m /\
      (forall k, (k < m)%nat -> stop_wait ci (i + k) = false) /\
      ((m < n)%nat -> stop_wait ci (i + m) = true).
Proof.
  induction n as [|n IH]; intros i; cbn [interval_wait].
  - exists 0%nat. repeat split; auto; lia.
  - destruct (stop_wait ci i) eqn:E.
    + exists 0%nat. rewrite Nat.add_0_r. repeat split; auto; lia.
    + destruct (IH (S i)) as (m & Hm & Hw & Hf & Ht).
      exists (S m). rewrite Hw. split; [lia|]. split; [reflexivity|]. split.
      * intros [|k] Hk; [now rewrite Nat.add_0_r|].
        replace (i + S k)%nat with (S i + k)%nat by lia. apply Hf. lia.
      * intros Hlt. replace (i + S m)%nat with (S i + m)%nat by lia.
        apply Ht. lia.
Qed.

(** X8: the poll interval is slept one second at a time: as many seconds
    as the stop flag is read unset in a row from the start, 10 at most; a
    stop request is seen before the next second is slept. *)
Theorem interval_wait_stops (ci : cycle_input) :
  exists m,
    (m <= 10)%nat /\
    interval_wait ci SENSOR_POLL_INTERVAL_SEC 0 = repeat (Sleep 1) m /\
    (forall k, (k < m)%nat -> stop_wait ci k = false) /\
    ((m < 10)%nat -> stop_wait ci m = true).
Proof. apply (interval_wait_stops_at ci SENSOR_POLL_INTERVAL_SEC 0). Qed.

(** X9: whatever cycles the polling thread runs, the cache it leaves holds
    the last reading it published, and a reader gets that reading; when it
    published nothing the state and the reader's answer are as before. *)
Theorem thread_last_publish (cycles : list (bool * cycle_input)) :
  forall s s' tr,
    dht22_polling_thread cycles s = Some (s', tr) ->
    s' = match last_publish tr with
         | Some th => with_reading th s
         | None => s
         end /\
    forall out,
      dht22_get_last_valid_reading s' out =
      match last_publish tr with
      | Some th => (0, th)
      | None => dht22_get_last_valid_reading s out
      end.
Proof.
  assert (Hmain : forall s s' tr,
             dht22_polling_thread cycles s = Some (s', tr) ->
             s' = match last_publish tr with
                  | Some th => with_reading th s
                  | None => s
                  end).
  { induction cycles as [|[stop ci] cycles IH]; intros s s' tr H;
      cbn [dht22_polling_thread] in H.
    - now inversion H.
    - destruct stop; [now inversion H|].
      destruct (poll_cycle ci s) as [[s1 tr1]|] eqn:E1; [|discriminate].
      cbn [fst snd] in H.
      destruct (dht22_polling_thread cycles s1) as [[s2 tr2]|] eqn:E2;
        [|discriminate].
      cbn [fst snd] in H. injection H as <- <-.
      rewrite last_publish_app, (IH _ _ _ E2), (poll_cycle_last _ _ _ _ E1).
      destruct (last_publish tr2); [|reflexivity].
      destruct (last_publish tr1); reflexivity. }
  intros s s' tr H. split; [now apply Hmain|].
  intros out. rewrite (Hmain _ _ _ H).
  destruct (last_publish tr) as [[t h]|]; reflexivity.
Qed.

Lemma thread_last_publish_witness :
  dht22_get_last_valid_reading
    (mkState (frame_temperature 1 93) (frame_humidity 2 140) 1 (-1) 0 0)
    (CFloat.zero, CFloat.zero)
    = (0, (frame_temperature 1 93, frame_humidity 2 140)).
Proof.
  apply (proj2 (thread_last_publish
                  [(false, good_cycle); (false, silent_cycle);
                   (true, good_cycle)]
                  initial_state
                  (mkState (frame_temperature 1 93) (frame_humidity 2 140)
                           1 (-1) 0 0)
                  (([Attempt 0 0;
                     Publish (frame_temperature 1 93) (frame_humidity 2 140);
                     Printf (frame_temperature 1 93) (frame_humidity 2 140)]
                    ++ repeat (Sleep 1) 10)
                   ++ ([Attempt 0 1; Usleep 200000; Attempt 1 1;
                        Usleep 200000; Attempt 2 1; Usleep 200000;
                        Attempt 3 1; Usleep 200000; Attempt 4 1]
                       ++ repeat (Sleep 1) 10))
                  ltac:(vm_compute; reflexivity))
          (CFloat.zero, CFloat.zero)).
Defined.

(** ** Further properties of the lifecycle (lines 145-220) *)

Lemma run_invariant (P : module_state -> Prop) :
  (forall c s s', real_pin c = true -> P s -> step c s = Some s' -> P s') ->
  forall cs s s',
    forallb real_pin cs = true -> P s -> run cs s = Some s' -> P s'.
Proof.
  intros Hstep. induction cs as [|c cs IH]; intros s s' Hc Hp Hr;
    cbn [run forallb] in *.
  - now injection Hr as <-.
  - apply andb_prop in Hc as [Hc1 Hc2].
    destruct (step c s) as [s1|] eqn:E; [|discriminate].
    apply (IH s1 s' Hc2 (Hstep c s s1 Hc1 Hp E) Hr).
Qed.

Lemma step_flag (c : call) (s s' : module_state) :
  (g_gpioPin s <> -1 -> g_terminate_thread s = 0) ->
  step c s = Some s' ->
  g_gpioPin s' <> -1 -> g_terminate_thread s' = 0.
Proof.
  intros Hf Hs.
  destruct c as [ok pin | ci | out | jr]; cbn [step] in Hs.
  - injection Hs as <-. unfold dht22_start_polling.
    destruct (Z.eqb_spec (g_gpioPin s) (-1)) as [E|E]; cbn [negb snd];
      [|exact Hf].
    destruct ok; cbn; auto.
  - destruct (0 <? polling_threads s)%nat; [|injection Hs as <-; exact Hf].
    destruct (poll_cycle ci s) as [[s1 tr]|] eqn:E; [|discriminate].
    cbn [option_map fst] in Hs. injection Hs as <-.
    rewrite (poll_cycle_last _ _ _ _ E).
    destruct (last_publish tr); [exact Hf | exact Hf].
  - injection Hs as <-. exact Hf.
  - injection Hs as <-. unfold dht22_terminate.
    destruct (Z.eqb_spec (g_gpioPin s) (-1)) as [E|E]; cbn [negb fst];
      [exact Hf|].
    cbn. intros H. now destruct H.
Qed.

(** X10: a second terminate changes nothing more and neither joins nor
    cancels a thread; it only calls [gpioTerminate] again. *)
Theorem terminate_idempotent (join1 join2 : Z) (s : module_state) :
  dht22_terminate join2 (fst (dht22_terminate join1 s)) =
  (fst (dht22_terminate join1 s), [GpioTerminate]).
Proof.
  unfold dht22_terminate.
  destruct (Z.eqb_spec (g_gpioPin s) (-1)) as [E|E]; cbn [negb fst].
  - apply Z.eqb_eq in E. now rewrite E.
  - reflexivity.
Qed.

(** X11: after a terminate, a start with a real pin succeeds again: it
    returns 0 with that pin configured, the stop flag back at 0 and one
    polling thread; a reader gets no data, not the reading cached before
    the terminate. *)
Theorem restart_after_terminate (cs : list call) (join_result gpioPin : Z)
        (s : module_state) :
  forallb real_pin cs = true ->
  run cs initial_state = Some s ->
  dht22_start_polling true gpioPin (fst (dht22_terminate join_result s)) =
  (0, mkState (g_temperature_c s) (g_humidity s) 0 gpioPin 0 1) /\
  forall out,
    dht22_get_last_valid_reading
      (snd (dht22_start_polling true gpioPin
              (fst (dht22_terminate join_result s)))) out = (1, out).
Proof.
  intros Hc Hr.
  destruct (run_consistent cs _ _ Hc initial_consistent Hr) as [H1 H2].
  unfold dht22_terminate.
  destruct (Z.eqb_spec (g_gpioPin s) (-1)) as [E|E]; cbn [negb fst].
  - destruct (H1 E) as [Ha Ht]. unfold dht22_start_polling.
    rewrite E, Ha, Ht. cbn. auto.
  - rewrite (H2 E). cbn. auto.
Qed.

Lemma restart_after_terminate_witness :
  dht22_start_polling true 17
    (fst (dht22_terminate 0
            (mkState (frame_temperature 1 93) (frame_humidity 2 140)
                     1 4 0 1))) =
  (0, mkState (frame_temperature 1 93) (frame_humidity 2 140) 0 17 0 1).
Proof.
  apply (restart_after_terminate [Start true 4; Cycle good_cycle] 0 17
           (mkState (frame_temperature 1 93) (frame_humidity 2 140) 1 4 0 1));
    vm_compute; reflexivity.
Defined.

(** X12: in every run that starts real pins there is never more than one
    polling thread: exactly one while a pin is configured, none otherwise;
    a reading is on offer only while a pin is configured, and the stop flag
    is 0 all that time. *)
Theorem single_polling_thread (cs : list call) (s : module_state) :
  forallb real_pin cs = true ->
  run cs initial_state = Some s ->
  (polling_threads s <= 1)%nat /\
  (polling_threads s = 1%nat <-> g_gpioPin s <> -1) /\
  (g_data_available s <> 0 -> g_gpioPin s <> -1) /\
  (g_gpioPin s <> -1 -> g_terminate_thread s = 0).
Proof.
  intros Hc Hr.
  assert (H : consistent s /\
              (g_gpioPin s <> -1 -> g_terminate_thread s = 0)).
  { apply (run_invariant
             (fun s => consistent s /\
                       (g_gpioPin s <> -1 -> g_terminate_thread s = 0)))
      with (cs := cs) (s := initial_state); auto.
    - intros c s0 s1 Hp [Hi Hf] Hs. split.
      + exact (step_consistent c s0 s1 Hp Hi Hs).
      + exact (step_flag c s0 s1 Hf Hs).
    - split; [apply initial_consistent | reflexivity]. }
  destruct H as [[H1 H2] H3].
  destruct (Z.eq_dec (g_gpioPin s) (-1)) as [E|E].
  - destruct (H1 E) as [Ha Ht]. rewrite Ht.
    repeat split; try lia; try congruence.
  - rewrite (H2 E). repeat split; auto.
Qed.

Lemma single_polling_thread_witness :
  (polling_threads
     (mkState (frame_temperature 1 93) (frame_humidity 2 140) 1 4 0 1)
   <= 1)%nat.
Proof.
  apply (single_polling_thread
           [Start true 4; Start true 17; Cycle good_cycle; Start false 5]
           (mkState (frame_temperature 1 93) (frame_humidity 2 140) 1 4 0 1));
    vm_compute; reflexivity.
Defined.

(** X13: -1 as a pin is taken for "no pin": a start with it returns 0 and
    creates a thread but leaves the module looking idle, so that a further
    start creates another thread and a terminate neither stops nor joins
    any. *)
Theorem start_with_no_pin_mark (join_result : Z) (s : module_state) :
  g_gpioPin s = -1 ->
  fst (dht22_start_polling true (-1) s) = 0 /\
  g_gpioPin (snd (dht22_start_polling true (-1) s)) = -1 /\
  polling_threads (snd (dht22_start_polling true (-1) s))
  = S (polling_threads s) /\
  polling_threads
    (snd (dht22_start_polling true (-1)
            (snd (dht22_start_polling true (-1) s))))
  = S (S (polling_threads s)) /\
  dht22_terminate join_result (snd (dht22_start_polling true (-1) s))
  = (snd (dht22_start_polling true (-1) s), [GpioTerminate]).
Proof.
  intros H. unfold dht22_start_polling, dht22_terminate.
  rewrite H. cbn. auto.
Qed.

Lemma start_with_no_pin_mark_witness :
  polling_threads (snd (dht22_start_polling true (-1) initial_state))
  = 1%nat.
Proof.
  apply (start_with_no_pin_mark 0 initial_state). reflexivity.
Defined.
